(** * fetch-cloudinary-images.js: a shallow embedding and its properties

    The script queries a media provider for folders and assets, classifies
    every asset ([convertToBrowserFormat]), groups the items per folder into
    albums, sorts the albums and writes [images.json].  The embedding follows
    the video-aware variant of the script (the one that defines [isHEICVideo]).

    JavaScript strings are modelled by [string]; the script only searches for
    and splices ASCII segments, for which bytes and UTF-16 code units agree. *)

From Stdlib Require Import String Ascii List ZArith NArith Lia Bool.
From Stdlib Require Import Permutation Sorted.
Import ListNotations.

Open Scope string_scope.
Open Scope list_scope.

(** ** JavaScript values, exceptions and the string methods the script calls *)

Module JS.

(** The values a field of a provider record can hold: the primitives and
    arrays.  [Undefined] is also what reading a missing property yields.
    Numbers are restricted to integers: the script never computes with them.
    A field that holds a plain object behaves, in all the script does with a
    field (the truth test, the comparison with a string literal, the calls of
    [includes] and [replace], neither of which a plain object has), like the
    boolean [true], and has no constructor of its own. *)
#[warnings="-register-all"]
Inductive value : Set :=
| Undefined
| Null
| Bool (b : bool)
| Num (z : Z)
| Str (s : string)
| Arr (elements : list value).

(** ToBoolean. *)
Definition truthy (v : value) : bool :=
  match v with
  | Undefined | Null => false
  | Bool b => b
  | Num z => negb (z =? 0)%Z
  | Str s => negb (s =? EmptyString)
  | Arr _ => true
  end.

(** [v === w].  An array is equal only to itself; the script compares
    fields with string literals only, and the model does not need to tell
    two arrays apart. *)
Definition strict_eq (v w : value) : bool :=
  match v, w with
  | Undefined, Undefined => true
  | Null, Null => true
  | Bool a, Bool b => Bool.eqb a b
  | Num a, Num b => (a =? b)%Z
  | Str a, Str b => (a =? b)
  | _, _ => false
  end.

(** What a [throw] (or a rejected promise) carries, as far as the script
    can observe it: whether the value is truthy and the string under its
    [message] property.  [ErrorObject] stands for any object, with its
    [message] when that is a string; [ThrownPrimitive] for a value that is
    not an object with properties of its own (a primitive or an array). *)
Inductive thrown : Set :=
| TypeError (message : string)
| ErrorObject (message : option string)
| ThrownPrimitive (v : value).

Inductive completion (A : Type) : Type :=
| Return (a : A)
| Throw (e : thrown).
Arguments Return {A} a.
Arguments Throw {A} e.

Definition bind {A B} (c : completion A) (k : A -> completion B) : completion B :=
  match c with
  | Return a => k a
  | Throw e => Throw e
  end.

(** [s.slice(n)] for [0 <= n]. *)
Fixpoint slice (n : nat) (s : string) : string :=
  match n, s with
  | O, _ => s
  | S _, EmptyString => EmptyString
  | S n', String _ s' => slice n' s'
  end.

(** [s.includes(pat)]. *)
Fixpoint includes (pat s : string) : bool :=
  if prefix pat s then true
  else match s with
       | EmptyString => false
       | String _ s' => includes pat s'
       end.

(** [s.replace(pat, rep)] for a string pattern: only the first occurrence
    is replaced.  The replacement strings of the script contain no [$], so
    no replacement pattern is expanded. *)
Fixpoint replace (pat rep s : string) : string :=
  if prefix pat s then rep ++ slice (String.length pat) s
  else match s with
       | EmptyString => s
       | String c s' => String c (replace pat rep s')
       end.

(** The message of the TypeError raised by [v.method(...)] when [v] is not
    a string (wording of V8). *)
Definition not_callable (v : value) (receiver method : string) : thrown :=
  match v with
  | Undefined =>
      TypeError ("Cannot read properties of undefined (reading '" ++ method ++ "')")
  | Null =>
      TypeError ("Cannot read properties of null (reading '" ++ method ++ "')")
  | _ => TypeError (receiver ++ "." ++ method ++ " is not a function")
  end.

(** [url.replace(pat, rep)] and [url.includes(pat)] on an arbitrary value
    bound to the variable [url].  Strings have both methods; arrays have
    [includes] only, which looks for an element equal to its argument. *)
Definition call_replace (v : value) (pat rep : string) : completion value :=
  match v with
  | Str s => Return (Str (replace pat rep s))
  | _ => Throw (not_callable v "url" "replace")
  end.

Definition call_includes (v : value) (pat : string) : completion bool :=
  match v with
  | Str s => Return (includes pat s)
  | Arr l => Return (existsb (fun x => strict_eq x (Str pat)) l)
  | _ => Throw (not_callable v "url" "includes")
  end.

End JS.

Import JS.

Notation "x <- c ;; k" := (JS.bind c (fun x => k))
  (at level 61, c at next level, right associativity).

(** ** The asset classifier *)

(** A record of the provider's search result, with the three properties the
    script reads.  A missing property reads as [Undefined]. *)
Record resource : Set := mkResource {
  secure_url : value;
  resource_type : value;
  format : value
}.

(** The object [convertToBrowserFormat] returns.  [isHEICLivePhoto] is only
    set on one path; [None] stands for the absent property. *)
Record item : Set := mkItem {
  url : value;
  originalUrl : value;
  isVideo : bool;
  isHEICLivePhoto : option bool
}.

(** How a reader of the item sees the optional flag ([item.isHEICLivePhoto],
    absent reads as falsy). *)
Definition isLivePhoto (i : item) : bool :=
  match isHEICLivePhoto i with
  | Some b => b
  | None => false
  end.

Definition isHEICVideo (r : resource) : bool :=
  strict_eq (format r) (Str "heic") && strict_eq (resource_type r) (Str "video").

Definition video_segment : string := "/video/upload/".
Definition image_segment : string := "/image/upload/".
Definition poster_directive : string := "so_0,f_jpg,q_auto".
Definition auto_directive : string := "f_auto,q_auto".

Definition convertToBrowserFormat (r : resource) : completion item :=
  let url := secure_url r in
  let resourceType := resource_type r in
  let format := format r in
  if isHEICVideo r then
    Return (mkItem url url true (Some true))
  else if strict_eq resourceType (Str "video") then
    u <- call_replace url "/video/upload/" "/video/upload/so_0,f_jpg,q_auto/" ;;
    Return (mkItem u url true None)
  else if strict_eq format (Str "heic") || strict_eq format (Str "heif") then
    u <- call_replace url "/image/upload/" "/image/upload/f_auto,q_auto/" ;;
    Return (mkItem u url false None)
  else
    b <- call_includes url "/image/upload/" ;;
    if (b : bool) then
      u <- call_replace url "/image/upload/" "/image/upload/f_auto,q_auto/" ;;
      Return (mkItem u url false None)
    else
      Return (mkItem url url false None).

(** ** Folder titles *)

(** [c.toUpperCase()] on one character.  Exact on ASCII; a byte above 127 is
    left as it is. *)
Definition toUpperCase (c : ascii) : ascii :=
  let n := nat_of_ascii c in
  if (97 <=? n)%nat && (n <=? 122)%nat then ascii_of_nat (n - 32) else c.

(** The separator class of the regular expression [/[-_]/]. *)
Definition is_separator (c : ascii) : bool :=
  (c =? "-")%char || (c =? "_")%char.

(** [s.split(/[-_]/)]: the result always has at least one word. *)
Fixpoint split (sep : ascii -> bool) (s : string) : list string :=
  match s with
  | EmptyString => [EmptyString]
  | String c s' =>
      if sep c then EmptyString :: split sep s'
      else match split sep s' with
           | w :: ws => String c w :: ws
           | [] => [String c EmptyString]
           end
  end.

(** [word.charAt(0).toUpperCase() + word.slice(1)]. *)
Definition capitalize (word : string) : string :=
  match word with
  | EmptyString => EmptyString
  | String c w => String (toUpperCase c) w
  end.

Definition formatFolderName (folderName : string) : string :=
  String.concat " " (map capitalize (split is_separator folderName)).

(** ** Plain objects used as dictionaries *)

Module Obj.

(** The own enumerable string-keyed properties, in the order they were
    created. *)
Definition t (V : Type) : Type := list (string * V).

Definition empty {V : Type} : t V := [].

Fixpoint update {V : Type} (k : string) (v : V) (o : t V) : t V :=
  match o with
  | [] => [(k, v)]
  | (k', v') :: o' =>
      if k' =? k then (k, v) :: o' else (k', v') :: update k v o'
  end.

(** [o[k] = v] where [v] is an object.  Assigning to [__proto__] runs the
    setter inherited from [Object.prototype]: it replaces the prototype of
    [o] and creates no own property. *)
Definition set {V : Type} (k : string) (v : V) (o : t V) : t V :=
  if k =? "__proto__" then o else update k v o.

Fixpoint get_own {V : Type} (k : string) (o : t V) : option V :=
  match o with
  | [] => None
  | (k', v) :: o' => if k' =? k then Some v else get_own k o'
  end.

(** The property names every plain object inherits from
    [Object.prototype]. *)
Definition prototype_keys : list string :=
  [ "constructor"; "__proto__"; "hasOwnProperty"; "isPrototypeOf";
    "propertyIsEnumerable"; "toLocaleString"; "toString"; "valueOf";
    "__defineGetter__"; "__defineSetter__"; "__lookupGetter__";
    "__lookupSetter__" ].

(** The outcome of reading [o[k]] on an object whose own properties hold
    values of type [V]. *)
Inductive read (V : Type) : Type :=
| Own (v : V)
| Inherited
| Missing.
Arguments Own {V} v.
Arguments Inherited {V}.
Arguments Missing {V}.

Definition get {V : Type} (k : string) (o : t V) : read V :=
  match get_own k o with
  | Some v => Own v
  | None => if existsb (String.eqb k) prototype_keys then Inherited else Missing
  end.

Definition digit (c : ascii) : option N :=
  let n := N_of_ascii c in
  if (48 <=? n)%N && (n <=? 57)%N then Some (n - 48)%N else None.

Fixpoint decimal (acc : N) (s : string) : option N :=
  match s with
  | EmptyString => Some acc
  | String c s' =>
      match digit c with
      | Some d => decimal (10 * acc + d)%N s'
      | None => None
      end
  end.

(** A key is an array index when it is the canonical decimal form of an
    integer below 2^32 - 1. *)
Definition array_index (k : string) : option N :=
  match k with
  | EmptyString => None
  | String "0" EmptyString => Some 0%N
  | String "0" _ => None
  | _ => match decimal 0 k with
         | Some n => if (n <? 4294967295)%N then Some n else None
         | None => None
         end
  end.

Fixpoint insert_index {V : Type} (n : N) (p : string * V)
    (l : list (N * (string * V))) : list (N * (string * V)) :=
  match l with
  | [] => [(n, p)]
  | (m, q) :: l' =>
      if (n <=? m)%N then (n, p) :: l else (m, q) :: insert_index n p l'
  end.

Fixpoint indexed {V : Type} (o : t V) : list (N * (string * V)) :=
  match o with
  | [] => []
  | p :: o' =>
      match array_index (fst p) with
      | Some n => insert_index n p (indexed o')
      | None => indexed o'
      end
  end.

Definition named {V : Type} (o : t V) : t V :=
  filter (fun p => match array_index (fst p) with Some _ => false | None => true end) o.

(** [Object.entries(o)]: array-index keys in ascending numeric order, then
    the other keys in creation order. *)
Definition entries {V : Type} (o : t V) : list (string * V) :=
  map snd (indexed o) ++ named o.

End Obj.

(** ** Album assembly *)

Definition albumCovers : Obj.t Z :=
  [ ("2020, SOL November", 1); ("2021, SOL April", 5); ("2021, SOL November", 2);
    ("2022, SOL April", 2); ("2022, SOL November", 0); ("2023, SOL April", 1);
    ("2023, SOL October", 4); ("2024, SOL April", 6); ("2024, SOL October", 1);
    ("2025, SOL April", 11); ("2025, SOL November", 35) ]%Z.

Record album : Set := mkAlbum {
  title : string;
  folder : string;
  coverImage : option item;
  images : list item
}.

(** The value of [albumCovers[folderName] || 0]: a number, or an object
    inherited from [Object.prototype]. *)
Inductive index : Set :=
| Index (z : Z)
| ObjectIndex.

Definition coverIndex (covers : Obj.t Z) (folderName : string) : index :=
  match Obj.get folderName covers with
  | Obj.Own z => if (z =? 0)%Z then Index 0 else Index z
  | Obj.Inherited => ObjectIndex
  | Obj.Missing => Index 0
  end.

(** [images[i]]: [None] is [undefined].  An object used as a key is turned
    into a string that names no element. *)
Definition element (images : list item) (i : index) : option item :=
  match i with
  | Index z => if (z <? 0)%Z then None else nth_error images (Z.to_nat z)
  | ObjectIndex => None
  end.

(** [images[coverIndex] || images[0]]; items are objects, hence truthy. *)
Definition coverOf (covers : Obj.t Z) (folderName : string) (images : list item)
  : option item :=
  match element images (coverIndex covers folderName) with
  | Some i => Some i
  | None => element images (Index 0)
  end.

Definition toAlbum (covers : Obj.t Z) (entry : string * list item) : album :=
  let '(folderName, images) := entry in
  mkAlbum (formatFolderName folderName) folderName
          (coverOf covers folderName images) images.

(** [Array.prototype.sort(comparefn)].  The language requires the sort to be
    stable; for a consistent comparison every stable sort returns the list
    computed here. *)
Section Sort.
Context {A : Type} (comparefn : A -> A -> comparison).

Fixpoint insert (x : A) (l : list A) : list A :=
  match l with
  | [] => [x]
  | y :: l' =>
      match comparefn x y with
      | Gt => y :: insert x l'
      | _ => x :: l
      end
  end.

Fixpoint sort (l : list A) : list A :=
  match l with
  | [] => []
  | x :: l' => insert x (sort l')
  end.
End Sort.

(** [albums.sort((a, b) => b.title.localeCompare(a.title))], for the
    comparison [localeCompare] that the host provides. *)
Definition sortAlbums (localeCompare : string -> string -> comparison)
    (albums : list album) : list album :=
  sort (fun a b => localeCompare (title b) (title a)) albums.

Definition assemble (localeCompare : string -> string -> comparison)
    (covers : Obj.t Z) (albumsByFolder : Obj.t (list item)) : list album :=
  sortAlbums localeCompare (map (toAlbum covers) (Obj.entries albumsByFolder)).

(** ** String comparison *)

Module Collation.

(** Ordinal comparison: code units, lexicographically. *)
Definition ordinal (a b : string) : comparison := String.compare a b.

Fixpoint lex (a b : list N) : comparison :=
  match a, b with
  | [], [] => Eq
  | [], _ :: _ => Lt
  | _ :: _, [] => Gt
  | x :: a', y :: b' =>
      match (x ?= y)%N with
      | Eq => lex a' b'
      | c => c
      end
  end.

Definition is_upper (c : ascii) : bool :=
  let n := nat_of_ascii c in (65 <=? n)%nat && (n <=? 90)%nat.

Definition toLowerCase (c : ascii) : ascii :=
  if is_upper c then ascii_of_nat (nat_of_ascii c + 32) else c.

(** The ASCII characters that carry a primary weight, in ascending order
    of the root collation: white space, punctuation, symbols, the currency
    sign, digits, letters. *)
Definition ascending : list ascii :=
  [ "009"; "010"; "011"; "012"; "013"; " ";
    "_"; "-"; ","; ";"; ":"; "!"; "?"; "."; "'"; "034";
    "("; ")"; "["; "]"; "{"; "}"; "@"; "*"; "/"; "\"; "&"; "#"; "%";
    "`"; "^"; "+"; "<"; "="; ">"; "|"; "~"; "$";
    "0"; "1"; "2"; "3"; "4"; "5"; "6"; "7"; "8"; "9";
    "a"; "b"; "c"; "d"; "e"; "f"; "g"; "h"; "i"; "j"; "k"; "l"; "m";
    "n"; "o"; "p"; "q"; "r"; "s"; "t"; "u"; "v"; "w"; "x"; "y"; "z" ]%char.

Fixpoint rank (c : ascii) (l : list ascii) (n : N) : option N :=
  match l with
  | [] => None
  | d :: l' => if (c =? d)%char then Some n else rank c l' (N.succ n)
  end.

(** The primary weight of a character; [None] for the control characters,
    which the collation ignores.  Bytes above 127 lie outside the modelled
    fragment and are ranked after the letters. *)
Definition primary (c : ascii) : option N :=
  match rank (toLowerCase c) ascending 1 with
  | Some n => Some n
  | None =>
      let n := N_of_ascii c in
      if (128 <=? n)%N then Some (n + 128)%N else None
  end.

(** The tertiary weight separates the two cases of a letter: lower case
    first. *)
Definition tertiary (c : ascii) : N := if is_upper c then 1%N else 0%N.

Fixpoint primaries (s : string) : list N :=
  match s with
  | EmptyString => []
  | String c s' =>
      match primary c with
      | Some n => n :: primaries s'
      | None => primaries s'
      end
  end.

Fixpoint tertiaries (s : string) : list N :=
  match s with
  | EmptyString => []
  | String c s' =>
      match primary c with
      | Some _ => tertiary c :: tertiaries s'
      | None => tertiaries s'
      end
  end.

(** A model of [a.localeCompare(b)] as Node evaluates it with its default
    collator (root collation, tertiary strength, punctuation not ignored),
    on ASCII text: the strings are compared by their primary weights, and
    only when these agree by the case of their letters. *)
Definition localeCompare (a b : string) : comparison :=
  match lex (primaries a) (primaries b) with
  | Eq => lex (tertiaries a) (tertiaries b)
  | c => c
  end.

End Collation.

(** ** The provider, the host and the run *)

Record folder_entry : Set := mkFolder { name : string }.

Record folders_result : Set := mkFolders { folders : option (list folder_entry) }.

Record search_result : Set := mkPage {
  resources : option (list resource);
  next_cursor : value
}.

(** The remote API: the folder listing and the search, which is given the
    expression and the cursor of the request.  Either call may reject. *)
Record provider : Type := mkProvider {
  root_folders : completion folders_result;
  execute : string -> value -> completion search_result
}.

(** What the script reads from its host besides the provider. *)
Record host : Type := mkHost {
  CLOUDINARY_CLOUD_NAME : option string;
  toISOString : string;
  localeCompare : string -> string -> comparison
}.

Inductive request : Set :=
| ListFolders
| Search (expression : string) (cursor : value).

Record output : Set := mkOutput {
  cloudName : string;
  lastUpdated : string;
  totalImages : nat;
  carouselImages : list item;
  albums : list album
}.

(** The content of [images.json]: what an earlier run or anyone else left
    there, or the serialization of an output object. *)
Inductive file : Set :=
| Bytes (s : string)
| Json (o : output).

(** A line written by [console.error]. *)
Inductive error_line : Set :=
| Text (s : string)
| TextAndError (s : string) (e : thrown).

(** The part of the outside world a run changes.  The narration printed with
    [console.log] is left out. *)
Record world : Set := mkWorld {
  requests : list request;
  stderr : list error_line;
  images_json : option file
}.

(** Computations of the [try] block: they change the world and return or
    throw; the result is [None] when the computation is still running after
    the iterations the fuel allows. *)
Definition M (A : Type) : Type := world -> option (completion A) * world.

Definition ret {A : Type} (a : A) : M A := fun w => (Some (Return a), w).

Definition mbind {A B : Type} (m : M A) (k : A -> M B) : M B :=
  fun w =>
    match m w with
    | (Some (Return a), w') => k a w'
    | (Some (Throw e), w') => (Some (Throw e), w')
    | (None, w') => (None, w')
    end.

Notation "x <<- m ;; k" := (mbind m (fun x => k))
  (at level 61, m at next level, right associativity).
Notation "' p <<- m ;; k" := (mbind m (fun x => match x with p => k end))
  (at level 61, p pattern, m at next level, right associativity).

Definition lift {A : Type} (c : completion A) : M A := fun w => (Some c, w).

Definition out_of_fuel {A : Type} : M A := fun w => (None, w).

Definition send (r : request) : M unit :=
  fun w => (Some (Return tt), mkWorld (requests w ++ [r]) (stderr w) (images_json w)).

(** [fs.writeFileSync('images.json', ...)].  The write itself is taken to
    succeed: a write that the file system refuses would end the run in the
    [catch] block like any other exception, and is not modelled. *)
Definition writeFileSync (f : file) : M unit :=
  fun w => (Some (Return tt), mkWorld (requests w) (stderr w) (Some f)).

(** [resources.map(r => convertToBrowserFormat(r))]: left to right, the
    first exception ends the traversal. *)
Fixpoint convertAll (rs : list resource) : completion (list item) :=
  match rs with
  | [] => Return []
  | r :: rs' =>
      i <- convertToBrowserFormat r ;;
      items <- convertAll rs' ;;
      Return (i :: items)
  end.

Definition or_empty {A : Type} (o : option (list A)) : list A :=
  match o with
  | Some l => l
  | None => []
  end.

Definition quote : string := String "034"%char EmptyString.
Definition newline : string := String "010"%char EmptyString.

(** The template [`asset_folder="${folder.name}"`]. *)
Definition expressionOf (folderName : string) : string :=
  "asset_folder=" ++ quote ++ folderName ++ quote.

Section Run.
Variable h : host.
Variable P : provider.

(** [await cloudinary.api.root_folders()] and
    [await cloudinary.search.expression(...) ... .next_cursor(nextCursor).execute()]:
    the request goes out, the provider answers or rejects.  The sort key, the
    page size of 500 and the two extra fields are the same in every search
    and are not recorded. *)
Definition call_root_folders : M folders_result :=
  _ <<- send ListFolders ;;
  lift (root_folders P).

Definition call_execute (expression : string) (nextCursor : value) : M search_result :=
  _ <<- send (Search expression nextCursor) ;;
  lift (execute P expression nextCursor).

(** The [do ... while (nextCursor)] loop; [fuel] bounds the number of
    iterations. *)
Fixpoint fetchPages (fuel : nat) (expression : string) (nextCursor : value)
    (folderImages allImages : list item) : M (list item * list item) :=
  match fuel with
  | O => out_of_fuel
  | S fuel' =>
      result <<- call_execute expression nextCursor ;;
      let resources := or_empty (resources result) in
      convertedItems <<- lift (convertAll resources) ;;
      let folderImages := folderImages ++ convertedItems in
      let allImages := allImages ++ convertedItems in
      let nextCursor := next_cursor result in
      if truthy nextCursor
      then fetchPages fuel' expression nextCursor folderImages allImages
      else ret (folderImages, allImages)
  end.

(** The [for (const folder of folders)] loop. *)
Fixpoint forFolders (fuel : nat) (fs : list folder_entry)
    (albumsByFolder : Obj.t (list item)) (allImages : list item)
    : M (Obj.t (list item) * list item) :=
  match fs with
  | [] => ret (albumsByFolder, allImages)
  | folder :: fs' =>
      '(folderImages, allImages) <<-
        fetchPages fuel (expressionOf (name folder)) Null [] allImages ;;
      let albumsByFolder :=
        if (0 <? List.length folderImages)%nat
        then Obj.set (name folder) folderImages albumsByFolder
        else albumsByFolder in
      forFolders fuel fs' albumsByFolder allImages
  end.

(** [process.env.CLOUDINARY_CLOUD_NAME || 'ddnebrkpu']. *)
Definition cloud_name : string :=
  match CLOUDINARY_CLOUD_NAME h with
  | Some s => if s =? EmptyString then "ddnebrkpu" else s
  | None => "ddnebrkpu"
  end.

(** The [try] block up to the construction of [output] ... *)
Definition buildOutput (fuel : nat) : M output :=
  foldersResult <<- call_root_folders ;;
  let folders := or_empty (folders foldersResult) in
  '(albumsByFolder, allImages) <<- forFolders fuel folders Obj.empty [] ;;
  '(rootImages, allImages) <<-
    fetchPages fuel (expressionOf EmptyString) Null [] allImages ;;
  let albums := assemble (localeCompare h) albumCovers albumsByFolder in
  ret (mkOutput cloud_name (toISOString h) (List.length allImages) allImages albums).

(** ... and the whole of it. *)
Definition tryBlock (fuel : nat) : M unit :=
  output <<- buildOutput fuel ;;
  writeFileSync (Json output).

(** [error && error.message && error.message.includes('api_key')]. *)
Definition mentions_api_key (error : thrown) : bool :=
  match error with
  | TypeError m => negb (m =? EmptyString) && includes "api_key" m
  | ErrorObject (Some m) => negb (m =? EmptyString) && includes "api_key" m
  | ErrorObject None => false
  | ThrownPrimitive _ => false
  end.

Definition guidance : list error_line :=
  [ Text (newline ++ "Please set your Cloudinary credentials:");
    Text "1. Edit fetch-cloudinary-images.js and add your API key and secret";
    Text "2. Or set environment variables:";
    Text ("   export CLOUDINARY_API_KEY=" ++ quote ++ "your-key" ++ quote);
    Text ("   export CLOUDINARY_API_SECRET=" ++ quote ++ "your-secret" ++ quote) ].

(** The [catch] block, up to the call of [process.exit(1)]. *)
Definition catchBlock (error : thrown) (w : world) : world :=
  let lines :=
    TextAndError (newline ++ "✖ Error fetching images:") error
    :: (if mentions_api_key error then guidance else []) in
  mkWorld (requests w) (stderr w ++ lines) (images_json w).

(** One run of the script: the exit status and the world it leaves.  The
    status is [None] when some folder is not exhausted after [fuel]
    requests. *)
Definition fetchAllImages (fuel : nat) (w : world) : option Z * world :=
  match tryBlock fuel w with
  | (None, w') => (None, w')
  | (Some (Return _), w') => (Some 0%Z, w')
  | (Some (Throw error), w') => (Some 1%Z, catchBlock error w')
  end.

End Run.

(** ** Notions used to state the properties *)

(** The provider answers the chain of requests for [expression] that starts
    at [cursor] with exactly the pages [pages]: every page but the last
    carries a cursor, which the next request presents; the last one carries
    none. *)
Fixpoint serves (P : provider) (expression : string) (cursor : value)
    (pages : list search_result) : Prop :=
  match pages with
  | [] => False
  | page :: rest =>
      execute P expression cursor = Return page /\
      match rest with
      | [] => truthy (next_cursor page) = false
      | _ :: _ =>
          truthy (next_cursor page) = true /\
          serves P expression (next_cursor page) rest
      end
  end.

(** The requests of a chain: the first one presents [cursor], every later
    one the cursor of the page before it. *)
Fixpoint chain (expression : string) (cursor : value)
    (pages : list search_result) : list request :=
  match pages with
  | [] => []
  | page :: rest =>
      Search expression cursor :: chain expression (next_cursor page) rest
  end.

(** The error with which the provider rejects a request, if it does. *)
Definition failure (P : provider) (r : request) : option thrown :=
  match r with
  | ListFolders =>
      match root_folders P with
      | Throw e => Some e
      | Return _ => None
      end
  | Search expression cursor =>
      match execute P expression cursor with
      | Throw e => Some e
      | Return _ => None
      end
  end.

(** The requests sent between two states of the world. *)
Definition issued (w w' : world) : list request :=
  skipn (List.length (requests w)) (requests w').

(** The output object in [images.json], if that is what the file holds. *)
Definition written (w : world) : option output :=
  match images_json w with
  | Some (Json o) => Some o
  | _ => None
  end.

(** The item sequence the script collects for one search expression, when
    the loop ends normally within [fuel] requests. *)
Definition folderItems (P : provider) (fuel : nat) (expression : string)
  : option (list item) :=
  match fetchPages P fuel expression Null [] [] (mkWorld [] [] None) with
  | (Some (Return (folderImages, _)), _) => Some folderImages
  | _ => None
  end.

(** The order a comparison function asks of two neighbours: [a] may stand
    before [b] unless the function puts [a] after [b]. *)
Definition may_precede {A : Type} (comparefn : A -> A -> comparison) (a b : A) : Prop :=
  comparefn a b <> Gt.

(** Titles in descending order of a comparison: no album is followed by one
    with a greater title. *)
Definition descending (compare : string -> string -> comparison)
    (l : list album) : Prop :=
  LocallySorted (may_precede (fun a b => compare (title b) (title a))) l.

(** The item sequence [s] is what the loop collects for the folder [f]. *)
Definition fetched (P : provider) (fuel : nat) (f : folder_entry) (s : list item) : Prop :=
  folderItems P fuel (expressionOf (name f)) = Some s.

(** A comparison that never calls two strings each greater than the other. *)
Definition consistent (compare : string -> string -> comparison) : Prop :=
  forall a b, compare a b = Gt -> compare b a <> Gt.

(** The records of every page are classified without an exception, page by
    page into the item lists [itemss]. *)
Definition converts (pages : list search_result) (itemss : list (list item)) : Prop :=
  Forall2 (fun page items => convertAll (or_empty (resources page)) = Return items)
          pages itemss.

(** The records of a list of pages, in the order the provider returned
    them. *)
Definition records (pages : list search_result) : list resource :=
  concat (map (fun page => or_empty (resources page)) pages).

(** The world after some more requests and nothing else. *)
Definition after (w : world) (rs : list request) : world :=
  mkWorld (requests w ++ rs) (stderr w) (images_json w).

(** What the [for] loop does with the item sequence of one folder, and with
    those of all folders in turn. *)
Definition register (albumsByFolder : Obj.t (list item))
    (entry : folder_entry * list item) : Obj.t (list item) :=
  if (0 <? List.length (snd entry))%nat
  then Obj.set (name (fst entry)) (snd entry) albumsByFolder
  else albumsByFolder.

Definition registerAll (fs : list folder_entry) (seqs : list (list item))
    (albumsByFolder : Obj.t (list item)) : Obj.t (list item) :=
  fold_left register (combine fs seqs) albumsByFolder.


(** ** Sample providers and hosts *)

Module Examples.

Definition photo (n : string) : resource :=
  mkResource
    (Str ("https://res.cloudinary.com/ddnebrkpu/image/upload/v1/" ++ n ++ ".jpg"))
    (Str "image") (Str "jpg").

Definition converted (n : string) : item :=
  mkItem
    (Str ("https://res.cloudinary.com/ddnebrkpu/image/upload/f_auto,q_auto/v1/"
          ++ n ++ ".jpg"))
    (Str ("https://res.cloudinary.com/ddnebrkpu/image/upload/v1/" ++ n ++ ".jpg"))
    false None.

Definition node : host :=
  mkHost None "2026-01-01T00:00:00.000Z" Collation.localeCompare.

Definition fresh : world := mkWorld [] [] None.

(** A provider whose folders and unfiled bucket fit in one page each. *)
Definition one_page_each (fs : list (string * list resource))
    (unfiled : list resource) : provider :=
  mkProvider
    (Return (mkFolders (Some (map (fun p => mkFolder (fst p)) fs))))
    (fun expression _ =>
       match find (fun p => expressionOf (fst p) =? expression) fs with
       | Some p => Return (mkPage (Some (snd p)) Undefined)
       | None => Return (mkPage (Some unfiled) Undefined)
       end).

(** Folder A with three photos, the empty folder B, one unfiled photo. *)
Definition two_folders : provider :=
  one_page_each [("A", [photo "1"; photo "2"; photo "3"]); ("B", [])] [photo "r"].

Definition seasons : provider :=
  one_page_each [("Summer", [photo "1"]); ("SUNSET", [photo "2"])] [].

Definition aprils : provider :=
  one_page_each
    [("2023-april", [photo "1"]); ("2024-april", [photo "2"]);
     ("2022-april", [photo "3"])] [].

Definition proto_folder : provider :=
  one_page_each [("__proto__", [photo "1"])] [].

(** Folder F spread over two pages; nothing else. *)
Definition page1 : search_result := mkPage (Some [photo "1"; photo "2"]) (Str "c1").
Definition page2 : search_result := mkPage (Some [photo "3"]) Null.

Definition two_pages : provider :=
  mkProvider
    (Return (mkFolders (Some [mkFolder "F"])))
    (fun expression cursor =>
       if expression =? expressionOf "F" then
         if strict_eq cursor (Str "c1") then Return page2 else Return page1
       else Return (mkPage None Undefined)).


(** The second page of folder F is rejected by the rate limiter. *)
Definition rate_limited : provider :=
  mkProvider
    (Return (mkFolders (Some [mkFolder "F"])))
    (fun expression cursor =>
       if strict_eq cursor (Str "c1")
       then Throw (ErrorObject (Some "Rate Limit Exceeded"))
       else Return page1).

Definition stale : world := mkWorld [] [] (Some (Bytes "{}")).

End Examples.

(** ** The URL-only variant of the classifier *)

Module UrlOnly.

(** [convertToBrowserFormat(url)] of the variant of the script that keeps
    only URLs: the automatic format directive is spliced into an image
    delivery URL, any other URL is returned as it is. *)
Definition convertToBrowserFormat (url : value) : completion value :=
  b <- call_includes url "/image/upload/" ;;
  if negb b then Return url
  else call_replace url "/image/upload/" "/image/upload/f_auto,q_auto/".

End UrlOnly.

(** ** Further notions *)

(** Strings of ASCII characters, on which [toUpperCase] is exact. *)
Definition is_ascii (c : ascii) : bool := (nat_of_ascii c <? 128)%nat.

Fixpoint ascii_only (s : string) : bool :=
  match s with
  | EmptyString => true
  | String c s' => is_ascii c && ascii_only s'
  end.

(** The characters of a string. *)
Fixpoint chars (s : string) : list ascii :=
  match s with
  | EmptyString => []
  | String c s' => c :: chars s'
  end.

(** A string without the separators of folder names. *)
Definition plain (s : string) : Prop :=
  forallb (fun c => negb (is_separator c)) (chars s) = true.

Definition is_lower (c : ascii) : bool :=
  let n := nat_of_ascii c in (97 <=? n)%nat && (n <=? 122)%nat.

Definition is_search (r : request) : Prop :=
  match r with
  | Search _ _ => True
  | ListFolders => False
  end.

(** The requests of the folder loop when the folders [fs] are served the
    page lists [pagess]: the chains of the folders, one after the other. *)
Fixpoint chains (fs : list folder_entry) (pagess : list (list search_result))
  : list request :=
  match fs, pagess with
  | f :: fs', pages :: pagess' =>
      chain (expressionOf (name f)) Null pages ++ chains fs' pagess'
  | _, _ => []
  end.

(** The provider hands out a cursor with every page of an expression,
    whatever cursor it is asked with, and the records of these pages can be
    classified. *)
Definition endless (P : provider) (expression : string) : Prop :=
  forall cursor,
    exists page items,
      execute P expression cursor = Return page /\
      convertAll (or_empty (resources page)) = Return items /\
      truthy (next_cursor page) = true.

(** A computation treats every world alike: its result and the requests it
    adds do not depend on the world it starts in, and it changes nothing
    else. *)
Definition uniform {A : Type} (m : M A) : Prop :=
  exists out rs, forall w, m w = (out, after w rs).

(** The provider answered every one of the requests. *)
Definition answered (P : provider) (rs : list request) : Prop :=
  Forall (fun r => failure P r = None) rs.

(** A computation only sends searches.  When it ends with an exception,
    either every request before the last was answered and the exception is
    the rejection of the last, or every request was answered and the
    exception is a TypeError; when it ends otherwise every request was
    answered. *)
Definition sound {A : Type} (P : provider) (m : M A) : Prop :=
  forall w out w',
    m w = (out, w') ->
    exists rs,
      w' = after w rs /\
      Forall is_search rs /\
      match out with
      | Some (Throw e) =>
          (exists rs0 r, rs = rs0 ++ [r] /\ answered P rs0 /\ failure P r = Some e) \/
          (answered P rs /\ exists msg, e = TypeError msg)
      | _ => answered P rs
      end.

Module MoreExamples.

(** One folder whose every page announces another one. *)
Definition bottomless : provider :=
  mkProvider
    (Return (mkFolders (Some [mkFolder "F"])))
    (fun _ _ => Return (mkPage (Some [Examples.photo "1"]) (Str "again"))).

(** An account without anything: the answers lack their lists. *)
Definition bare : provider :=
  mkProvider
    (Return (mkFolders None))
    (fun _ _ => Return (mkPage None Undefined)).


(** The folder F is listed twice. *)
Definition listed_twice : provider :=
  Examples.one_page_each
    [("F", [Examples.photo "1"; Examples.photo "2"]); ("F", [Examples.photo "1"; Examples.photo "2"])]
    [Examples.photo "r"].

End MoreExamples.

(** * Properties *)

(** ** Searching and splicing strings *)

Section StringFacts.
Local Open Scope string_scope.

Lemma append_assoc (a b c : string) : (a ++ b) ++ c = a ++ (b ++ c).
Proof.
  induction a as [|x a IH]; simpl; [reflexivity | now rewrite IH].
Qed.

Lemma prefix_append (p s : string) : prefix p (p ++ s) = true.
Proof.
  induction p as [|c p IH]; simpl.
  - now destruct s.
  - destruct (ascii_dec c c) as [_|n]; [exact IH | now elim n].
Qed.

Lemma prefix_slice (p s : string) :
  prefix p s = true -> s = p ++ slice (String.length p) s.
Proof.
  revert s; induction p as [|c p IH]; intros s H; simpl.
  - reflexivity.
  - destruct s as [|d s]; simpl in H; [discriminate|].
    destruct (ascii_dec c d) as [->|]; [|discriminate].
    simpl. f_equal. now apply IH.
Qed.

Lemma includes_false_replace (pat rep s : string) :
  includes pat s = false -> replace pat rep s = s.
Proof.
  induction s as [|c s IH]; cbn [includes replace].
  - destruct (prefix pat EmptyString); [discriminate | reflexivity].
  - destruct (prefix pat (String c s)); [discriminate|].
    intros H. now rewrite IH.
Qed.

Lemma includes_append (pre pat post : string) :
  includes pat (pre ++ pat ++ post) = true.
Proof.
  induction pre as [|c pre IH].
  - change (EmptyString ++ pat ++ post) with (pat ++ post).
    destruct (pat ++ post) eqn:E; cbn [includes];
      rewrite <- E, prefix_append; reflexivity.
  - change (String c pre ++ pat ++ post) with (String c (pre ++ pat ++ post)).
    cbn [includes].
    destruct (prefix pat (String c (pre ++ pat ++ post)));
      [reflexivity | exact IH].
Qed.

(** [replace] splices at the first occurrence of the pattern. *)
Lemma replace_splice (pat rep s : string) :
  includes pat s = true ->
  exists pre post,
    s = pre ++ pat ++ post /\
    replace pat rep s = pre ++ rep ++ post /\
    forall pre' post', s = pre' ++ pat ++ post' ->
                       String.length pre <= String.length pre'.
Proof.
  induction s as [|c s IH]; cbn [includes replace].
  - destruct (prefix pat EmptyString) eqn:E; [|discriminate].
    intros _. exists EmptyString, (slice (String.length pat) EmptyString).
    repeat split.
    + now apply prefix_slice.
    + intros; simpl; lia.
  - destruct (prefix pat (String c s)) eqn:E.
    + intros _. exists EmptyString, (slice (String.length pat) (String c s)).
      repeat split.
      * now apply prefix_slice.
      * intros; simpl; lia.
    + intros H. destruct (IH H) as (pre & post & Hs & Hr & Hfirst).
      exists (String c pre), post. repeat split.
      * simpl. now rewrite <- Hs.
      * simpl. now rewrite Hr.
      * intros pre' post' Heq. destruct pre' as [|d pre'].
        -- simpl in Heq. rewrite Heq, prefix_append in E. discriminate.
        -- simpl in Heq. injection Heq as _ Heq.
           simpl. apply le_n_S. now apply (Hfirst pre' post').
Qed.

End StringFacts.

(** ** The classifier *)

Lemma strict_eq_Str (v : value) (s : string) :
  strict_eq v (Str s) = true <-> v = Str s.
Proof.
  destruct v; simpl; try (split; congruence).
  rewrite String.eqb_eq. split; congruence.
Qed.

Lemma strict_eq_Str_false (v : value) (s : string) :
  v <> Str s -> strict_eq v (Str s) = false.
Proof.
  intros H. destruct (strict_eq v (Str s)) eqn:E; [|reflexivity].
  now apply strict_eq_Str in E.
Qed.

Lemma isHEICVideo_iff (r : resource) :
  isHEICVideo r = true <-> format r = Str "heic" /\ resource_type r = Str "video".
Proof.
  unfold isHEICVideo. now rewrite andb_true_iff, !strict_eq_Str.
Qed.

(** What the splice of a directive after a delivery segment looks like. *)
Lemma splice_directive (segment directive u : string) :
  includes segment u = true ->
  exists pre post,
    u = (pre ++ segment ++ post)%string /\
    replace segment (segment ++ directive ++ "/") u
      = (pre ++ segment ++ directive ++ "/" ++ post)%string /\
    (forall pre' post', u = (pre' ++ segment ++ post')%string ->
                        String.length pre <= String.length pre') /\
    includes directive (replace segment (segment ++ directive ++ "/") u) = true.
Proof.
  intros H.
  destruct (replace_splice segment (segment ++ directive ++ "/") u H)
    as (pre & post & Hu & Hr & Hfirst).
  exists pre, post. rewrite Hr. repeat split; trivial.
  - now rewrite !append_assoc.
  - replace (pre ++ (segment ++ directive ++ "/") ++ post)%string
      with ((pre ++ segment) ++ directive ++ ("/" ++ post))%string
      by now rewrite !append_assoc.
    apply includes_append.
Qed.

(** C1: a record whose resource kind is video and whose format is heic is
    classified as a live photo: [isVideo] and [isHEICLivePhoto] are true, and
    [url] and [originalUrl] are both the record's secure URL, untouched. *)
Theorem heic_video_is_live_photo (r : resource)
    (Hkind : resource_type r = Str "video") (Hformat : format r = Str "heic") :
  exists i,
    convertToBrowserFormat r = Return i /\
    isVideo i = true /\
    isHEICLivePhoto i = Some true /\ isLivePhoto i = true /\
    url i = originalUrl i /\ originalUrl i = secure_url r.
Proof.
  exists (mkItem (secure_url r) (secure_url r) true (Some true)).
  unfold convertToBrowserFormat.
  assert (isHEICVideo r = true) as -> by now apply isHEICVideo_iff.
  repeat split.
Qed.

Lemma heic_video_is_live_photo_witness :
  let r := mkResource (Str "https://res.cloudinary.com/ddnebrkpu/video/upload/v1/live.heic")
                      (Str "video") (Str "heic") in
  resource_type r = Str "video" /\ format r = Str "heic" /\
  exists i,
    convertToBrowserFormat r = Return i /\
    isVideo i = true /\
    isHEICLivePhoto i = Some true /\ isLivePhoto i = true /\
    url i = originalUrl i /\ originalUrl i = secure_url r.
Proof.
  intros r. split; [reflexivity|]. split; [reflexivity|].
  apply (heic_video_is_live_photo r); reflexivity.
Defined.

(** C2: a record whose resource kind is video and whose format is not heic
    is classified as an ordinary video: [isVideo] is true, the live-photo
    flag is not set, [originalUrl] is the secure URL, and [url] is the secure
    URL with [so_0,f_jpg,q_auto/] spliced right after its first
    [/video/upload/]; a URL without that segment is returned as it is. *)
Theorem plain_video_gets_poster (r : resource) (u : string)
    (Hkind : resource_type r = Str "video")
    (Hformat : format r <> Str "heic")
    (Hurl : secure_url r = Str u) :
  exists i,
    convertToBrowserFormat r = Return i /\
    isVideo i = true /\ isLivePhoto i = false /\
    originalUrl i = Str u /\
    (includes video_segment u = true ->
     exists pre post,
       u = (pre ++ video_segment ++ post)%string /\
       url i = Str (pre ++ video_segment ++ poster_directive ++ "/" ++ post) /\
       (forall pre' post', u = (pre' ++ video_segment ++ post')%string ->
                           String.length pre <= String.length pre') /\
       exists u', url i = Str u' /\ includes poster_directive u' = true) /\
    (includes video_segment u = false -> url i = Str u).
Proof.
  exists (mkItem (Str (replace "/video/upload/" "/video/upload/so_0,f_jpg,q_auto/" u))
                 (Str u) true None).
  unfold convertToBrowserFormat.
  assert (isHEICVideo r = false) as ->.
  { unfold isHEICVideo. now rewrite strict_eq_Str_false. }
  rewrite Hkind, Hurl. cbn [strict_eq String.eqb Ascii.eqb Bool.eqb call_replace bind].
  repeat split.
  - intros H. cbn [url].
    destruct (splice_directive video_segment poster_directive u H)
      as (pre & post & Hu & Hr & Hfirst & Hin).
    exists pre, post. repeat split; trivial.
    + f_equal. exact Hr.
    + eexists; split; [reflexivity | exact Hin].
  - intros H. cbn [url]. f_equal.
    now apply includes_false_replace.
Qed.

Lemma plain_video_gets_poster_witness :
  let u := "https://res.cloudinary.com/ddnebrkpu/video/upload/v1/clip.mp4" in
  let r := mkResource (Str u) (Str "video") (Str "mp4") in
  (resource_type r = Str "video" /\ format r <> Str "heic" /\ secure_url r = Str u) /\
  exists i,
    convertToBrowserFormat r = Return i /\
    isVideo i = true /\ isLivePhoto i = false /\
    originalUrl i = Str u /\
    (includes video_segment u = true ->
     exists pre post,
       u = (pre ++ video_segment ++ post)%string /\
       url i = Str (pre ++ video_segment ++ poster_directive ++ "/" ++ post) /\
       (forall pre' post', u = (pre' ++ video_segment ++ post')%string ->
                           String.length pre <= String.length pre') /\
       exists u', url i = Str u' /\ includes poster_directive u' = true) /\
    (includes video_segment u = false -> url i = Str u).
Proof.
  intros u r.
  assert (H : resource_type r = Str "video" /\ format r <> Str "heic" /\
              secure_url r = Str u)
    by (repeat split; discriminate).
  split; [exact H|].
  destruct H as (Hk & Hf & Hu).
  exact (plain_video_gets_poster r u Hk Hf Hu).
Defined.

(** The classification of everything that is not a video, in one equation:
    [replace] is the identity on a URL without the image segment, so the
    three remaining rules of the script agree. *)
Lemma convert_still (r : resource) (u : string) :
  resource_type r <> Str "video" ->
  secure_url r = Str u ->
  convertToBrowserFormat r =
    Return (mkItem (Str (replace "/image/upload/" "/image/upload/f_auto,q_auto/" u))
                   (Str u) false None).
Proof.
  intros Hkind Hurl. unfold convertToBrowserFormat.
  assert (isHEICVideo r = false) as ->.
  { unfold isHEICVideo. rewrite (strict_eq_Str_false (resource_type r)) by trivial.
    apply andb_false_r. }
  rewrite strict_eq_Str_false by trivial. rewrite Hurl.
  destruct (strict_eq (format r) (Str "heic") || strict_eq (format r) (Str "heif")).
  - reflexivity.
  - cbn [call_includes call_replace bind].
    destruct (includes "/image/upload/" u) eqn:E; [reflexivity|].
    now rewrite includes_false_replace.
Qed.

(** C3, as the script behaves: a record whose resource kind is not video is
    classified with [isVideo] false and [originalUrl] the secure URL; when the
    URL contains [/image/upload/], [url] has [f_auto,q_auto/] spliced right
    after the first such segment; when it does not, [url] equals
    [originalUrl], whatever the format, heic and heif included. *)
Theorem still_image_classification (r : resource) (u : string)
    (Hkind : resource_type r <> Str "video")
    (Hurl : secure_url r = Str u) :
  exists i,
    convertToBrowserFormat r = Return i /\
    isVideo i = false /\
    originalUrl i = Str u /\
    (includes image_segment u = true ->
     exists pre post,
       u = (pre ++ image_segment ++ post)%string /\
       url i = Str (pre ++ image_segment ++ auto_directive ++ "/" ++ post) /\
       (forall pre' post', u = (pre' ++ image_segment ++ post')%string ->
                           String.length pre <= String.length pre') /\
       exists u', url i = Str u' /\ includes auto_directive u' = true) /\
    (includes image_segment u = false -> url i = originalUrl i).
Proof.
  eexists. split; [exact (convert_still r u Hkind Hurl)|].
  cbn [isVideo originalUrl url].
  repeat split.
  - intros H.
    destruct (splice_directive image_segment auto_directive u H)
      as (pre & post & Hu & Hr & Hfirst & Hin).
    exists pre, post. repeat split; trivial.
    + f_equal. exact Hr.
    + eexists; split; [reflexivity | exact Hin].
  - intros H. f_equal. now apply includes_false_replace.
Qed.

Lemma still_image_classification_witness :
  let u := "https://res.cloudinary.com/ddnebrkpu/image/upload/v1/still.heic" in
  let r := mkResource (Str u) (Str "image") (Str "heic") in
  (resource_type r <> Str "video" /\ secure_url r = Str u) /\
  exists i,
    convertToBrowserFormat r = Return i /\
    isVideo i = false /\
    originalUrl i = Str u /\
    (includes image_segment u = true ->
     exists pre post,
       u = (pre ++ image_segment ++ post)%string /\
       url i = Str (pre ++ image_segment ++ auto_directive ++ "/" ++ post) /\
       (forall pre' post', u = (pre' ++ image_segment ++ post')%string ->
                           String.length pre <= String.length pre') /\
       exists u', url i = Str u' /\ includes auto_directive u' = true) /\
    (includes image_segment u = false -> url i = originalUrl i).
Proof.
  intros u r.
  assert (H : resource_type r <> Str "video" /\ secure_url r = Str u)
    by (split; [discriminate | reflexivity]).
  split; [exact H|].
  exact (still_image_classification r u (proj1 H) (proj2 H)).
Defined.

(** C3 as stated fails: a heic still whose URL has no [/image/upload/]
    segment (here an authenticated delivery URL) keeps its URL, which
    contains no [f_auto,q_auto]. *)
Lemma heic_still_off_upload_path_untransformed :
  let u := "https://res.cloudinary.com/ddnebrkpu/image/authenticated/s--Ab12--/v1/still.heic" in
  let r := mkResource (Str u) (Str "image") (Str "heic") in
  resource_type r <> Str "video" /\ format r = Str "heic" /\
  convertToBrowserFormat r = Return (mkItem (Str u) (Str u) false None) /\
  includes auto_directive u = false.
Proof.
  repeat split. discriminate.
Qed.

(** C4, as the script behaves: the classifier returns an item for every
    record whose secure URL is a string, whatever its other fields hold or
    lack ([isVideo] is set only for the resource kind video, the live-photo
    flag only for a heic video), and for every heic video, whose URL is
    passed on unread.  A URL that is an array is passed on unchanged when the
    record reaches the last rule (not a video, neither heic nor heif) and the
    array does not hold the image segment as an element; otherwise it makes
    the classifier throw a TypeError, and so does every URL that is neither a
    string nor an array (a missing one first of all), except on a heic
    video. *)
Theorem classifier_total_on_string_urls (r : resource) :
  (forall u, secure_url r = Str u ->
     exists i,
       convertToBrowserFormat r = Return i /\
       originalUrl i = Str u /\
       isVideo i = strict_eq (resource_type r) (Str "video") /\
       isLivePhoto i = isHEICVideo r) /\
  (isHEICVideo r = true ->
     convertToBrowserFormat r =
       Return (mkItem (secure_url r) (secure_url r) true (Some true))) /\
  (forall l, secure_url r = Arr l -> isHEICVideo r = false ->
     if negb (strict_eq (resource_type r) (Str "video"))
        && negb (strict_eq (format r) (Str "heic") || strict_eq (format r) (Str "heif"))
        && negb (existsb (fun x => strict_eq x (Str "/image/upload/")) l)
     then convertToBrowserFormat r = Return (mkItem (Arr l) (Arr l) false None)
     else exists m, convertToBrowserFormat r = Throw (TypeError m)) /\
  ((forall u, secure_url r <> Str u) -> (forall l, secure_url r <> Arr l) ->
   isHEICVideo r = false ->
     exists m, convertToBrowserFormat r = Throw (TypeError m)).
Proof.
  split; [|split; [|split]].
  - intros u Hurl. unfold convertToBrowserFormat.
    destruct (isHEICVideo r) eqn:Hlive.
    + apply isHEICVideo_iff in Hlive as [_ Hk].
      exists (mkItem (secure_url r) (secure_url r) true (Some true)).
      cbn [originalUrl isVideo]. rewrite Hk. repeat split. exact Hurl.
    + rewrite Hurl. cbn [call_replace call_includes bind].
      destruct (strict_eq (resource_type r) (Str "video")).
      * eexists; repeat split.
      * destruct (strict_eq (format r) (Str "heic") || strict_eq (format r) (Str "heif")).
        -- eexists; repeat split.
        -- destruct (includes "/image/upload/" u); eexists; repeat split.
  - intros Hlive. unfold convertToBrowserFormat. now rewrite Hlive.
  - intros l Hurl Hlive. unfold convertToBrowserFormat. rewrite Hlive, Hurl.
    cbn [call_replace call_includes bind not_callable].
    destruct (strict_eq (resource_type r) (Str "video")); cbn [negb andb];
      [eexists; reflexivity|].
    destruct (strict_eq (format r) (Str "heic") || strict_eq (format r) (Str "heif"));
      cbn [negb andb]; [eexists; reflexivity|].
    destruct (existsb (fun x => strict_eq x (Str "/image/upload/")) l);
      cbn [negb]; [eexists; reflexivity | reflexivity].
  - intros Hurl Harr Hlive. unfold convertToBrowserFormat. rewrite Hlive.
    destruct (secure_url r) as [| |b|z|s|l] eqn:E;
      try (now elim (Hurl s)); try (now elim (Harr l));
      destruct (strict_eq (resource_type r) (Str "video"));
      try (eexists; reflexivity);
      destruct (strict_eq (format r) (Str "heic") || strict_eq (format r) (Str "heif"));
      eexists; reflexivity.
Qed.

Lemma classifier_total_on_string_urls_witness :
  let r := mkResource (Str "https://res.cloudinary.com/ddnebrkpu/raw/upload/v1/notes.txt")
                      Undefined Undefined in
  let a := mkResource (Arr []) (Str "image") (Str "jpg") in
  (exists i,
     convertToBrowserFormat r = Return i /\
     originalUrl i = secure_url r /\
     isVideo i = false /\
     isLivePhoto i = false) /\
  convertToBrowserFormat a = Return (mkItem (Arr []) (Arr []) false None).
Proof.
  intros r a. split.
  - exact (proj1 (classifier_total_on_string_urls r) _ eq_refl).
  - exact (proj1 (proj2 (proj2 (classifier_total_on_string_urls a))) [] eq_refl eq_refl).
Defined.

(** C4 as stated fails: a record without any of the three fields makes the
    classifier throw. *)
Lemma empty_record_throws :
  convertToBrowserFormat (mkResource Undefined Undefined Undefined)
  = Throw (TypeError "Cannot read properties of undefined (reading 'includes')").
Proof.
  reflexivity.
Qed.

(** ** Cover selection *)





(** ** Sorting *)

Section SortFacts.
Context {A : Type} (comparefn : A -> A -> comparison).

Lemma insert_perm (x : A) (l : list A) :
  Permutation (x :: l) (insert comparefn x l).
Proof.
  induction l as [|y l IH]; cbn [insert].
  - apply Permutation_refl.
  - destruct (comparefn x y); try apply Permutation_refl.
    eapply perm_trans; [apply perm_swap|]. now apply perm_skip.
Qed.

Lemma sort_perm (l : list A) : Permutation l (sort comparefn l).
Proof.
  induction l as [|x l IH]; cbn [sort].
  - apply perm_nil.
  - eapply perm_trans; [apply perm_skip, IH | apply insert_perm].
Qed.

Hypothesis comparefn_total :
  forall x y, comparefn x y = Gt -> comparefn y x <> Gt.

Lemma insert_HdRel (y x : A) (l : list A) :
  may_precede comparefn y x ->
  HdRel (may_precede comparefn) y l ->
  HdRel (may_precede comparefn) y (insert comparefn x l).
Proof.
  intros Hyx Hl. destruct l as [|z l]; cbn [insert].
  - now constructor.
  - inversion_clear Hl. destruct (comparefn x z); now constructor.
Qed.

Lemma insert_sorted (x : A) (l : list A) :
  Sorted (may_precede comparefn) l -> Sorted (may_precede comparefn) (insert comparefn x l).
Proof.
  induction 1 as [|y l Hl IH Hy]; cbn [insert].
  - repeat constructor.
  - destruct (comparefn x y) eqn:E.
    + repeat constructor; trivial. unfold may_precede. congruence.
    + repeat constructor; trivial. unfold may_precede. congruence.
    + constructor; [exact IH|].
      apply insert_HdRel; [|exact Hy]. now apply comparefn_total.
Qed.

Lemma sort_sorted (l : list A) : Sorted (may_precede comparefn) (sort comparefn l).
Proof.
  induction l as [|x l IH]; cbn [sort].
  - constructor.
  - now apply insert_sorted.
Qed.

End SortFacts.

Lemma sortAlbums_perm (compare : string -> string -> comparison) (l : list album) :
  Permutation l (sortAlbums compare l).
Proof.
  apply sort_perm.
Qed.

Lemma sortAlbums_descending (compare : string -> string -> comparison)
    (l : list album) :
  consistent compare -> descending compare (sortAlbums compare l).
Proof.
  intros H. apply Sorted_LocallySorted_iff.
  apply (sort_sorted (fun a b : album => compare (title b) (title a))).
  intros x y. apply H.
Qed.

(** ** The collation model is a consistent comparison *)

Lemma lex_antisym (a b : list N) : Collation.lex b a = CompOpp (Collation.lex a b).
Proof.
  revert b; induction a as [|x a IH]; intros [|y b]; cbn [Collation.lex];
    try reflexivity.
  rewrite (N.compare_antisym x y).
  destruct (x ?= y)%N; cbn [CompOpp]; trivial.
Qed.

Lemma localeCompare_antisym (a b : string) :
  Collation.localeCompare b a = CompOpp (Collation.localeCompare a b).
Proof.
  unfold Collation.localeCompare.
  rewrite (lex_antisym (Collation.primaries a)).
  destruct (Collation.lex (Collation.primaries a) (Collation.primaries b));
    cbn [CompOpp]; trivial.
  apply lex_antisym.
Qed.

Lemma localeCompare_consistent : consistent Collation.localeCompare.
Proof.
  intros a b H. rewrite (localeCompare_antisym a b), H. discriminate.
Qed.

(** ** The fetch loop *)

Lemma mbind_Return {A B : Type} (m : M A) (k : A -> M B) (w w' : world) (b : B) :
  mbind m k w = (Some (Return b), w') ->
  exists a w1, m w = (Some (Return a), w1) /\ k a w1 = (Some (Return b), w').
Proof.
  unfold mbind. destruct (m w) as [[[a|e]|] w1]; try discriminate.
  intros H. now exists a, w1.
Qed.

Lemma after_after (w : world) (rs rs' : list request) :
  after (after w rs) rs' = after w (rs ++ rs').
Proof.
  unfold after; cbn. now rewrite app_assoc.
Qed.

Lemma call_execute_run (P : provider) (e : string) (c : value) (w : world) :
  call_execute P e c w = (Some (execute P e c), after w [Search e c]).
Proof.
  reflexivity.
Qed.

Lemma issued_after (w : world) (rs : list request) : issued w (after w rs) = rs.
Proof.
  unfold issued, after; cbn.
  rewrite skipn_app, skipn_all, Nat.sub_diag. reflexivity.
Qed.

Lemma chain_length (e : string) (c : value) (pages : list search_result) :
  List.length (chain e c pages) = List.length pages.
Proof.
  revert c; induction pages as [|page rest IH]; intros c; cbn; [|rewrite IH];
    reflexivity.
Qed.

(** Against a provider that serves [pages], the loop ends normally after
    the requests of the chain, with the items of all pages appended. *)
Lemma fetchPages_serves (P : provider) (e : string) (pages : list search_result) :
  forall (fuel : nat) (c : value) (itemss : list (list item))
         (fi all : list item) (w : world),
    serves P e c pages -> converts pages itemss ->
    List.length pages <= fuel ->
    fetchPages P fuel e c fi all w =
      (Some (Return (fi ++ concat itemss, all ++ concat itemss)),
       after w (chain e c pages)).
Proof.
  induction pages as [|page rest IH]; intros fuel c itemss fi all w Hs Hc Hfuel.
  - destruct Hs.
  - destruct fuel as [|fuel]; [cbn in Hfuel; lia|].
    inversion Hc as [|? items ? itemss' Hitems Hrest]; subst.
    destruct Hs as [Hpage Hnext].
    cbn [fetchPages]. unfold mbind at 1. rewrite call_execute_run, Hpage.
    unfold mbind at 1, lift. rewrite Hitems.
    destruct rest as [|page' rest].
    + rewrite Hnext. inversion Hrest; subst. cbn [concat chain].
      now rewrite !app_nil_r.
    + destruct Hnext as [Htruthy Hs']. rewrite Htruthy.
      rewrite (IH fuel (next_cursor page) itemss'); trivial.
      * cbn [concat]. rewrite after_after, !app_assoc. reflexivity.
      * cbn in Hfuel |- *. lia.
Qed.

(** Conversely a loop that ends normally has been served a chain of pages. *)
Lemma fetchPages_Return (P : provider) (e : string) (fuel : nat) :
  forall (c : value) (fi all fi' all' : list item) (w w' : world),
    fetchPages P fuel e c fi all w = (Some (Return (fi', all')), w') ->
    exists pages itemss,
      serves P e c pages /\ converts pages itemss /\
      List.length pages <= fuel /\
      fi' = fi ++ concat itemss /\ all' = all ++ concat itemss /\
      w' = after w (chain e c pages).
Proof.
  induction fuel as [|fuel IH]; intros c fi all fi' all' w w' H.
  - discriminate.
  - cbn [fetchPages] in H.
    apply mbind_Return in H as (page & w1 & Hcall & H).
    rewrite call_execute_run in Hcall. injection Hcall as Hpage <-.
    apply mbind_Return in H as (items & w2 & Hconv & H).
    unfold lift in Hconv. injection Hconv as Hitems <-.
    destruct (truthy (next_cursor page)) eqn:Htruthy.
    + apply IH in H as (pages & itemss & Hs & Hc & Hlen & -> & -> & ->).
      exists (page :: pages), (items :: itemss). repeat split.
      * exact Hpage.
      * destruct pages as [|page' pages]; [destruct Hs|]. now split.
      * now constructor.
      * cbn. lia.
      * cbn [concat]. now rewrite app_assoc.
      * cbn [concat]. now rewrite app_assoc.
      * now rewrite after_after.
    + injection H as <- <- <-.
      exists [page], [items]. repeat split; trivial.
      * repeat constructor. exact Hitems.
      * cbn. lia.
      * cbn [concat]. now rewrite app_nil_r.
      * cbn [concat]. now rewrite app_nil_r.
Qed.

(** The result of a loop does not depend on what was collected before. *)
Lemma fetchPages_folderItems (P : provider) (e : string) (fuel : nat)
    (fi all fi' all' : list item) (w w' : world) :
  fetchPages P fuel e Null fi all w = (Some (Return (fi', all')), w') ->
  exists items,
    folderItems P fuel e = Some items /\
    fi' = fi ++ items /\ all' = all ++ items /\
    exists rs, w' = after w rs.
Proof.
  intros H.
  apply fetchPages_Return in H as (pages & itemss & Hs & Hc & Hlen & -> & -> & ->).
  exists (concat itemss). repeat split.
  - unfold folderItems.
    now rewrite (fetchPages_serves P e pages fuel Null itemss).
  - now exists (chain e Null pages).
Qed.

(** C8: when the provider answers the requests for an expression with N
    pages, the first N - 1 of which carry a cursor and the last none, the
    loop sends exactly N search requests, the first without a cursor and each
    later one with the cursor of the response before it, and then ends with
    the items of the N pages. *)
Theorem fetch_issues_one_request_per_page
    (P : provider) (e : string) (pages : list search_result)
    (itemss : list (list item)) (fuel : nat) (fi all : list item) (w : world)
    (Hserves : serves P e Null pages)
    (Hconverts : converts pages itemss)
    (Hfuel : List.length pages <= fuel) :
  exists w',
    fetchPages P fuel e Null fi all w =
      (Some (Return (fi ++ concat itemss, all ++ concat itemss)), w') /\
    issued w w' = chain e Null pages /\
    List.length (issued w w') = List.length pages.
Proof.
  exists (after w (chain e Null pages)). split; [|split].
  - now apply fetchPages_serves.
  - apply issued_after.
  - now rewrite issued_after, chain_length.
Qed.

Lemma fetch_issues_one_request_per_page_witness :
  let P := Examples.two_pages in
  let e := expressionOf "F" in
  let pages := [Examples.page1; Examples.page2] in
  let itemss := [[Examples.converted "1"; Examples.converted "2"];
                 [Examples.converted "3"]] in
  (serves P e Null pages /\ converts pages itemss /\ List.length pages <= 7) /\
  exists w',
    fetchPages P 7 e Null [] [] Examples.fresh =
      (Some (Return ([] ++ concat itemss, [] ++ concat itemss)), w') /\
    issued Examples.fresh w' = [Search e Null; Search e (Str "c1")] /\
    List.length (issued Examples.fresh w') = 2.
Proof.
  intros P e pages itemss.
  assert (H : serves P e Null pages /\ converts pages itemss /\
              List.length pages <= 7).
  { split; [|split].
    - cbn. repeat split.
    - repeat constructor.
    - cbn. lia. }
  split; [exact H|].
  destruct H as (Hs & Hc & Hf).
  exact (fetch_issues_one_request_per_page P e pages itemss 7 [] []
           Examples.fresh Hs Hc Hf).
Defined.

(** ** Rejected requests *)

Section Quiet.
Variable P : provider.










End Quiet.

Lemma issued_app (w w' : world) (rs : list request) :
  requests w' = requests w ++ rs -> issued w w' = rs.
Proof.
  intros H. unfold issued. rewrite H, skipn_app, skipn_all, Nat.sub_diag.
  reflexivity.
Qed.




(** ** Successful runs *)

(** The provider's folders have item sequences [seqs], one per folder. *)
Lemma forFolders_Return (P : provider) (fuel : nat) (fs : list folder_entry) :
  forall (albumsByFolder albumsByFolder' : Obj.t (list item))
         (all all' : list item) (w w' : world),
    forFolders P fuel fs albumsByFolder all w
      = (Some (Return (albumsByFolder', all')), w') ->
    exists seqs,
      Forall2 (fun f s => folderItems P fuel (expressionOf (name f)) = Some s) fs seqs /\
      all' = all ++ concat seqs /\
      albumsByFolder' = registerAll fs seqs albumsByFolder.
Proof.
  induction fs as [|f fs IH]; intros o o' all all' w w' H; cbn [forFolders] in H.
  - injection H as <- <- <-. exists []. repeat split.
    + constructor.
    + now rewrite app_nil_r.
  - apply mbind_Return in H as ([fi all1] & w1 & Hfetch & H).
    apply fetchPages_folderItems in Hfetch as (s & Hs & -> & -> & _).
    apply IH in H as (seqs & Hseqs & -> & ->).
    exists (s :: seqs). repeat split.
    + now constructor.
    + cbn [concat]. now rewrite app_assoc.
Qed.

(** The shape of the output object of a run that gets to build one. *)
Lemma buildOutput_Return (h : host) (P : provider) (fuel : nat)
    (w w' : world) (o : output) :
  buildOutput h P fuel w = (Some (Return o), w') ->
  exists result seqs root,
    root_folders P = Return result /\
    Forall2 (fun f s => folderItems P fuel (expressionOf (name f)) = Some s)
            (or_empty (folders result)) seqs /\
    folderItems P fuel (expressionOf EmptyString) = Some root /\
    o = mkOutput (cloud_name h) (toISOString h)
          (List.length (concat seqs ++ root)) (concat seqs ++ root)
          (assemble (localeCompare h) albumCovers
             (registerAll (or_empty (folders result)) seqs Obj.empty)).
Proof.
  unfold buildOutput. intros H.
  apply mbind_Return in H as (result & w1 & Hlist & H).
  unfold call_root_folders, mbind, send, lift in Hlist.
  injection Hlist as Hresult _.
  apply mbind_Return in H as ([o1 all1] & w2 & Hfolders & H).
  apply forFolders_Return in Hfolders as (seqs & Hseqs & -> & ->).
  apply mbind_Return in H as ([root all2] & w3 & Hroot & H).
  apply fetchPages_folderItems in Hroot as (s & Hs & -> & -> & _).
  injection H as <- _.
  exists result, seqs, s. repeat split; trivial.
Qed.

Lemma run_success (h : host) (P : provider) (fuel : nat) (w w' : world) :
  fetchAllImages h P fuel w = (Some 0%Z, w') ->
  exists o w1,
    buildOutput h P fuel w = (Some (Return o), w1) /\
    written w' = Some o.
Proof.
  unfold fetchAllImages, tryBlock, mbind.
  destruct (buildOutput h P fuel w) as [[[o|e]|] w1]; try discriminate.
  intros H. injection H as <-. now exists o, w1.
Qed.

Lemma convertAll_Forall2 (rs : list resource) (items : list item) :
  convertAll rs = Return items ->
  Forall2 (fun r i => convertToBrowserFormat r = Return i) rs items.
Proof.
  revert items; induction rs as [|r rs IH]; intros items H; cbn [convertAll] in H.
  - injection H as <-. constructor.
  - destruct (convertToBrowserFormat r) as [i|e] eqn:Hi; [|discriminate].
    cbn [bind] in H.
    destruct (convertAll rs) as [items'|e] eqn:Hrest; [|discriminate].
    cbn [bind] in H. injection H as <-.
    constructor; [exact Hi | now apply IH].
Qed.

(** The items collected from pages are the classified records of the pages,
    one for one. *)
Lemma converts_records (pages : list search_result) (itemss : list (list item)) :
  converts pages itemss ->
  Forall2 (fun r i => convertToBrowserFormat r = Return i)
          (records pages) (concat itemss).
Proof.
  unfold records. induction 1 as [|page items pages itemss Hpage _ IH];
    cbn [map concat]; [constructor|].
  apply Forall2_app; [now apply convertAll_Forall2 | exact IH].
Qed.

Lemma fetchPages_records (P : provider) (e : string) (fuel : nat)
    (fi all fi' all' : list item) (w w' : world) :
  fetchPages P fuel e Null fi all w = (Some (Return (fi', all')), w') ->
  exists pages s,
    serves P e Null pages /\
    Forall2 (fun r i => convertToBrowserFormat r = Return i) (records pages) s /\
    fi' = fi ++ s /\ all' = all ++ s.
Proof.
  intros H.
  apply fetchPages_Return in H as (pages & itemss & Hs & Hc & _ & -> & -> & _).
  exists pages, (concat itemss). repeat split; trivial.
  now apply converts_records.
Qed.

Lemma forFolders_records (P : provider) (fuel : nat) (fs : list folder_entry) :
  forall (o o' : Obj.t (list item)) (all all' : list item) (w w' : world),
    forFolders P fuel fs o all w = (Some (Return (o', all')), w') ->
    exists pagess seqs,
      Forall2 (fun f pages => serves P (expressionOf (name f)) Null pages) fs pagess /\
      Forall2 (fun pages s =>
                 Forall2 (fun r i => convertToBrowserFormat r = Return i)
                         (records pages) s) pagess seqs /\
      all' = all ++ concat seqs.
Proof.
  induction fs as [|f fs IH]; intros o o' all all' w w' H; cbn [forFolders] in H.
  - injection H as _ <- _. exists [], []. repeat split; try constructor.
    now rewrite app_nil_r.
  - apply mbind_Return in H as ([fi all1] & w1 & Hfetch & H).
    apply fetchPages_records in Hfetch as (pages & s & Hs & Hc & _ & ->).
    apply IH in H as (pagess & seqs & Hss & Hcs & ->).
    exists (pages :: pagess), (s :: seqs). repeat split.
    + now constructor.
    + now constructor.
    + cbn [concat]. now rewrite app_assoc.
Qed.

(** C10: on a run that ends with status 0, [carouselImages] is the item
    sequences of the folders, in the order of the listing, followed by the
    item sequence of the unfiled assets, and [totalImages] is its length.
    The item sequence of a folder (or of the unfiled assets) is made of the
    records on the pages the provider returned for it, in their order, each
    classified by [convertToBrowserFormat]. *)
Theorem carousel_is_folders_then_unfiled
    (h : host) (P : provider) (fuel : nat) (w w' : world)
    (Hrun : fetchAllImages h P fuel w = (Some 0%Z, w')) :
  exists o result pagess unfiled seqs root,
    written w' = Some o /\
    root_folders P = Return result /\
    Forall2 (fun f pages => serves P (expressionOf (name f)) Null pages)
            (or_empty (folders result)) pagess /\
    serves P (expressionOf EmptyString) Null unfiled /\
    Forall2 (fun pages s =>
               Forall2 (fun r i => convertToBrowserFormat r = Return i)
                       (records pages) s) pagess seqs /\
    Forall2 (fun r i => convertToBrowserFormat r = Return i) (records unfiled) root /\
    carouselImages o = concat seqs ++ root /\
    totalImages o = List.length (carouselImages o).
Proof.
  apply run_success in Hrun as (o & w1 & Hbuild & Hwritten).
  unfold buildOutput in Hbuild.
  apply mbind_Return in Hbuild as (result & w2 & Hlist & H).
  unfold call_root_folders, mbind, send, lift in Hlist.
  injection Hlist as Hresult _.
  apply mbind_Return in H as ([o1 all1] & w3 & Hfolders & H).
  apply forFolders_records in Hfolders as (pagess & seqs & Hss & Hcs & ->).
  apply mbind_Return in H as ([root all2] & w4 & Hroot & H).
  apply fetchPages_records in Hroot as (unfiled & s & Hs & Hc & _ & ->).
  injection H as <- _.
  eexists; exists result, pagess, unfiled, seqs, s.
  split; [exact Hwritten|]. cbn [carouselImages totalImages]. repeat split; trivial.
Qed.

Lemma carousel_is_folders_then_unfiled_witness :
  let run := fetchAllImages Examples.node Examples.two_folders 1 Examples.fresh in
  run = (Some 0%Z, snd run) /\
  option_map carouselImages (written (snd run))
    = Some [Examples.converted "1"; Examples.converted "2"; Examples.converted "3";
            Examples.converted "r"] /\
  option_map totalImages (written (snd run)) = Some 4 /\
  exists o result pagess unfiled seqs root,
    written (snd run) = Some o /\
    root_folders Examples.two_folders = Return result /\
    Forall2 (fun f pages =>
               serves Examples.two_folders (expressionOf (name f)) Null pages)
            (or_empty (folders result)) pagess /\
    serves Examples.two_folders (expressionOf EmptyString) Null unfiled /\
    Forall2 (fun pages s =>
               Forall2 (fun r i => convertToBrowserFormat r = Return i)
                       (records pages) s) pagess seqs /\
    Forall2 (fun r i => convertToBrowserFormat r = Return i) (records unfiled) root /\
    carouselImages o = concat seqs ++ root /\
    totalImages o = List.length (carouselImages o).
Proof.
  intros run.
  assert (H : run = (Some 0%Z, snd run)) by reflexivity.
  split; [exact H|]. split; [reflexivity|]. split; [reflexivity|].
  exact (carousel_is_folders_then_unfiled Examples.node Examples.two_folders 1
           Examples.fresh (snd run) H).
Defined.

(** ** The order of the albums *)

(** C6, as the script behaves: the albums of the output are in descending
    order of their titles under [localeCompare], the comparison of the host's
    collator, called without the numeric option.  Under the default collation
    of Node the titles 2023 April, 2024 April, 2022 April come out as
    2024 April, 2023 April, 2022 April, and digits are compared one by one,
    not as numbers: 10 sorts below 9. *)
Theorem albums_sorted_by_localeCompare
    (h : host) (P : provider) (fuel : nat) (w w' : world) (o : output)
    (Hhost : consistent (localeCompare h))
    (Hrun : fetchAllImages h P fuel w = (Some 0%Z, w'))
    (Hfile : written w' = Some o) :
  descending (localeCompare h) (albums o) /\
  (forall a b c,
     title a = "2023 April" -> title b = "2024 April" -> title c = "2022 April" ->
     sortAlbums Collation.localeCompare [a; b; c] = [b; a; c]) /\
  Collation.localeCompare "10" "9" = Lt.
Proof.
  split; [|split].
  - apply run_success in Hrun as (o' & w1 & Hbuild & Hwritten).
    assert (o' = o) as -> by congruence.
    apply buildOutput_Return in Hbuild as (result & seqs & root & _ & _ & _ & ->).
    cbn [albums]. unfold assemble. now apply sortAlbums_descending.
  - intros [ta fa ca ia] [tb fb cb ib] [tc fc cc ic] Ha Hb Hc.
    cbn [title] in Ha, Hb, Hc. subst ta tb tc. reflexivity.
  - reflexivity.
Qed.

Lemma albums_sorted_by_localeCompare_witness :
  let run := fetchAllImages Examples.node Examples.aprils 1 Examples.fresh in
  let o := mkOutput "ddnebrkpu" "2026-01-01T00:00:00.000Z" 3
             [Examples.converted "1"; Examples.converted "2"; Examples.converted "3"]
             [mkAlbum "2024 April" "2024-april" (Some (Examples.converted "2"))
                      [Examples.converted "2"];
              mkAlbum "2023 April" "2023-april" (Some (Examples.converted "1"))
                      [Examples.converted "1"];
              mkAlbum "2022 April" "2022-april" (Some (Examples.converted "3"))
                      [Examples.converted "3"]] in
  (consistent (localeCompare Examples.node) /\
   run = (Some 0%Z, snd run) /\
   written (snd run) = Some o) /\
  descending (localeCompare Examples.node) (albums o).
Proof.
  intros run o.
  assert (H : consistent (localeCompare Examples.node) /\
              run = (Some 0%Z, snd run) /\ written (snd run) = Some o).
  { split; [exact localeCompare_consistent|]. split; reflexivity. }
  split; [exact H|].
  destruct H as (Hhost & Hrun & Hfile).
  exact (proj1 (albums_sorted_by_localeCompare Examples.node Examples.aprils 1
                  Examples.fresh (snd run) o Hhost Hrun Hfile)).
Defined.

(** C6 as stated fails: with the folders Summer and SUNSET the output lists
    SUNSET before Summer, although SUNSET is the smaller title in ordinal
    order (U is code 85, u is 117). *)
Lemma seasons_not_in_ordinal_order :
  let run := fetchAllImages Examples.node Examples.seasons 1 Examples.fresh in
  fst run = Some 0%Z /\
  option_map (fun o => map title (albums o)) (written (snd run))
    = Some ["SUNSET"; "Summer"] /\
  Collation.ordinal "SUNSET" "Summer" = Lt /\
  forall o, written (snd run) = Some o -> ~ descending Collation.ordinal (albums o).
Proof.
  intros run. split; [reflexivity|]. split; [reflexivity|]. split; [reflexivity|].
  intros o Ho. injection Ho as <-. intros Hsorted.
  inversion Hsorted as [| |a b l Hl Hab]; subst.
  now apply Hab.
Qed.

(** ** Objects as dictionaries *)

Section ObjFacts.
Context {V : Type}.

Lemma update_In (k k' : string) (v v' : V) (o : Obj.t V) :
  In (k', v') (Obj.update k v o) -> (k' = k /\ v' = v) \/ In (k', v') o.
Proof.
  induction o as [|[k0 v0] o IH]; cbn [Obj.update].
  - intros [H|[]]. injection H as <- <-. now left.
  - destruct (k0 =? k)%string.
    + intros [H|H]; [injection H as <- <-; now left | right; now right].
    + intros [H|H]; [right; now left|].
      destruct (IH H) as [?|?]; [now left | right; now right].
Qed.

Lemma update_In_new (k : string) (v : V) (o : Obj.t V) :
  In (k, v) (Obj.update k v o).
Proof.
  induction o as [|[k0 v0] o IH]; cbn [Obj.update].
  - now left.
  - destruct (k0 =? k)%string; [now left | now right].
Qed.

Lemma update_In_other (k k' : string) (v v' : V) (o : Obj.t V) :
  In (k', v') o -> k' <> k -> In (k', v') (Obj.update k v o).
Proof.
  intros Hin Hne. induction o as [|[k0 v0] o IH]; cbn [Obj.update].
  - destruct Hin.
  - destruct (String.eqb_spec k0 k) as [->|_].
    + destruct Hin as [H|H]; [injection H as <- <-; now elim Hne | now right].
    + destruct Hin as [H|H]; [now left | right; now apply IH].
Qed.

Lemma update_keys (k k' : string) (v : V) (o : Obj.t V) :
  In k' (map fst (Obj.update k v o)) -> k' = k \/ In k' (map fst o).
Proof.
  induction o as [|[k0 v0] o IH]; cbn [Obj.update].
  - intros [<-|[]]. now left.
  - destruct (k0 =? k)%string; cbn [map fst].
    + intros [<-|H]; [now left | right; now right].
    + intros [<-|H]; [right; now left|].
      destruct (IH H) as [?|?]; [now left | right; now right].
Qed.

Lemma update_NoDup (k : string) (v : V) (o : Obj.t V) :
  NoDup (map fst o) -> NoDup (map fst (Obj.update k v o)).
Proof.
  induction o as [|[k0 v0] o IH]; cbn [Obj.update map fst]; intros H.
  - repeat constructor. intros [].
  - inversion_clear H as [|? ? Hnotin Hrest].
    destruct (String.eqb_spec k0 k) as [->|Hne]; cbn [map fst].
    + now constructor.
    + constructor; [|now apply IH].
      intros Hin. apply update_keys in Hin as [->|Hin]; [now elim Hne | now elim Hnotin].
Qed.

Lemma set_NoDup (k : string) (v : V) (o : Obj.t V) :
  NoDup (map fst o) -> NoDup (map fst (Obj.set k v o)).
Proof.
  unfold Obj.set. destruct (k =? "__proto__")%string; [trivial | apply update_NoDup].
Qed.

Lemma insert_index_perm (n : N) (p : string * V) (l : list (N * (string * V))) :
  Permutation (p :: map snd l) (map snd (Obj.insert_index n p l)).
Proof.
  induction l as [|[m q] l IH]; cbn [Obj.insert_index map snd].
  - apply Permutation_refl.
  - destruct (n <=? m)%N; cbn [map snd].
    + apply Permutation_refl.
    + eapply perm_trans; [apply perm_swap | now apply perm_skip].
Qed.

(** [Object.entries] lists every own property once. *)
Lemma entries_perm (o : Obj.t V) : Permutation o (Obj.entries o).
Proof.
  unfold Obj.entries, Obj.named.
  induction o as [|p o IH]; cbn [Obj.indexed filter].
  - apply perm_nil.
  - destruct (Obj.array_index (fst p)) as [n|].
    + eapply perm_trans; [apply perm_skip, IH|].
      change (Permutation
                ((p :: map snd (Obj.indexed o)) ++
                 filter (fun p0 => match Obj.array_index (fst p0) with
                                   | Some _ => false
                                   | None => true
                                   end) o)
                (map snd (Obj.insert_index n p (Obj.indexed o)) ++
                 filter (fun p0 => match Obj.array_index (fst p0) with
                                   | Some _ => false
                                   | None => true
                                   end) o)).
      apply Permutation_app_tail, insert_index_perm.
    + eapply perm_trans; [apply perm_skip, IH|].
      apply Permutation_middle.
Qed.

End ObjFacts.

(** ** Which folders become albums *)

Section Registered.
Variables (P : provider) (fuel : nat).


Lemma register_NoDup (o : Obj.t (list item)) (entry : folder_entry * list item) :
  NoDup (map fst o) -> NoDup (map fst (register o entry)).
Proof.
  unfold register. destruct (0 <? List.length (snd entry))%nat;
    [apply set_NoDup | trivial].
Qed.

Lemma registerAll_NoDup (fs : list folder_entry) (seqs : list (list item)) :
  forall o, NoDup (map fst o) -> NoDup (map fst (registerAll fs seqs o)).
Proof.
  unfold registerAll. generalize (combine fs seqs) as l.
  induction l as [|entry l IH]; intros o H; cbn [fold_left]; [trivial|].
  now apply IH, register_NoDup.
Qed.

(** Every property of the dictionary was put there for a listed folder that
    is not called [__proto__], and holds its non-empty item sequence. *)
Lemma registerAll_In (fs : list folder_entry) (seqs : list (list item)) :
  Forall2 (fetched P fuel) fs seqs ->
  forall o k v,
    In (k, v) (registerAll fs seqs o) ->
    In (k, v) o \/
    (k <> "__proto__" /\ v <> [] /\
     (exists f, In f fs /\ name f = k) /\
     folderItems P fuel (expressionOf k) = Some v).
Proof.
  unfold registerAll.
  induction 1 as [|f s fs seqs Hf Hrest IH]; intros o k v; cbn [combine fold_left].
  - now left.
  - intros Hin. destruct (IH _ _ _ Hin) as [Ho|(Hk & Hv & (f' & Hf' & Hname) & Hitems)].
    + unfold register in Ho. cbn [fst snd] in Ho.
      destruct s as [|i s]; cbn [List.length Nat.ltb Nat.leb] in Ho; [now left|].
      unfold Obj.set in Ho.
      destruct (String.eqb_spec (name f) "__proto__") as [|Hproto]; [now left|].
      apply update_In in Ho as [[-> ->]|Ho]; [right | now left].
      repeat split; trivial; [discriminate | exists f; split; [now left | reflexivity]].
    + right. repeat split; trivial. exists f'. split; [now right | trivial].
Qed.

Lemma registerAll_keeps (fs : list folder_entry) (seqs : list (list item)) :
  Forall2 (fetched P fuel) fs seqs ->
  forall o k v,
    folderItems P fuel (expressionOf k) = Some v ->
    In (k, v) o -> In (k, v) (registerAll fs seqs o).
Proof.
  unfold registerAll.
  induction 1 as [|f s fs seqs Hf Hrest IH]; intros o k v Hk Hin;
    cbn [combine fold_left]; [trivial|].
  apply IH; [exact Hk|].
  unfold register, Obj.set. cbn [fst snd].
  destruct (0 <? List.length s)%nat; [|trivial].
  destruct (name f =? "__proto__")%string; [trivial|].
  destruct (String.eqb_spec k (name f)) as [->|Hne].
  - unfold fetched in Hf. assert (s = v) as -> by congruence.
    apply update_In_new.
  - now apply update_In_other.
Qed.

(** Every listed folder with items is in the dictionary, unless it is called
    [__proto__]. *)
Lemma registerAll_covers (fs : list folder_entry) (seqs : list (list item)) :
  Forall2 (fetched P fuel) fs seqs ->
  forall o f s,
    In f fs -> name f <> "__proto__" -> fetched P fuel f s -> s <> [] ->
    In (name f, s) (registerAll fs seqs o).
Proof.
  induction 1 as [|f0 s0 fs seqs Hf0 Hrest IH]; intros o f s Hin Hproto Hf Hs.
  - destruct Hin.
  - destruct Hin as [->|Hin].
    + unfold fetched in Hf0, Hf. assert (s0 = s) as -> by congruence.
      change (registerAll (f :: fs) (s :: seqs) o)
        with (registerAll fs seqs (register o (f, s))).
      apply registerAll_keeps; trivial.
      unfold register, Obj.set. cbn [fst snd].
      destruct s as [|i s]; [now elim Hs|]. cbn [List.length Nat.ltb Nat.leb].
      destruct (String.eqb_spec (name f) "__proto__") as [E|_]; [now elim Hproto|].
      apply update_In_new.
    + change (registerAll (f0 :: fs) (s0 :: seqs) o)
        with (registerAll fs seqs (register o (f0, s0))).
      now apply IH.
Qed.

End Registered.

Lemma assemble_perm (compare : string -> string -> comparison) (covers : Obj.t Z)
    (albumsByFolder : Obj.t (list item)) :
  Permutation (map (toAlbum covers) albumsByFolder)
              (assemble compare covers albumsByFolder).
Proof.
  unfold assemble.
  eapply perm_trans; [|apply sortAlbums_perm].
  apply Permutation_map, entries_perm.
Qed.

Lemma toAlbum_folder (covers : Obj.t Z) (l : Obj.t (list item)) :
  map folder (map (toAlbum covers) l) = map fst l.
Proof.
  induction l as [|[k v] l IH]; cbn [map toAlbum folder fst]; [|rewrite IH];
    reflexivity.
Qed.

(** The albums of a successful run: no folder has two; each belongs to a
    listed folder not called [__proto__] and holds exactly the items fetched
    for that folder, of which there is at least one; and each listed folder
    with items, unless it is called [__proto__], has its album.  The unfiled
    items are fetched after the dictionary is complete and never enter it. *)
Lemma albums_of_run (h : host) (P : provider) (fuel : nat) (w w' : world)
    (o : output) (result : folders_result) :
  fetchAllImages h P fuel w = (Some 0%Z, w') ->
  written w' = Some o ->
  root_folders P = Return result ->
  NoDup (map folder (albums o)) /\
  (forall a, In a (albums o) ->
     a = toAlbum albumCovers (folder a, images a) /\
     images a <> [] /\ folder a <> "__proto__" /\
     (exists f, In f (or_empty (folders result)) /\ name f = folder a) /\
     folderItems P fuel (expressionOf (folder a)) = Some (images a)) /\
  (forall f s,
     In f (or_empty (folders result)) -> name f <> "__proto__" ->
     folderItems P fuel (expressionOf (name f)) = Some s -> s <> [] ->
     exists a, In a (albums o) /\ folder a = name f /\ images a = s).
Proof.
  intros Hrun Hfile Hlist.
  apply run_success in Hrun as (o' & w1 & Hbuild & Hwritten).
  assert (o' = o) as -> by congruence.
  apply buildOutput_Return in Hbuild as (result' & seqs & root & Hr & Hs & _ & ->).
  assert (result' = result) as -> by congruence.
  cbn [albums].
  set (fs := or_empty (folders result)) in *.
  set (dict := registerAll fs seqs Obj.empty).
  pose proof (assemble_perm (localeCompare h) albumCovers dict) as Hperm.
  split; [|split].
  - apply (Permutation_NoDup (Permutation_map folder Hperm)).
    rewrite toAlbum_folder. apply registerAll_NoDup. constructor.
  - intros a Ha.
    apply (Permutation_in _ (Permutation_sym Hperm)) in Ha.
    apply in_map_iff in Ha as ([k v] & <- & Hin).
    cbn [toAlbum folder images].
    destruct (registerAll_In P fuel fs seqs Hs _ _ _ Hin)
      as [[]|(Hk & Hv & Hf & Hitems)].
    repeat split; trivial.
  - intros f s Hin Hproto Hf Hne.
    exists (toAlbum albumCovers (name f, s)). repeat split.
    apply (Permutation_in _ Hperm), in_map.
    now apply (registerAll_covers P fuel fs seqs Hs).
Qed.

(** C7 at a folder called [__proto__]: the folder's photo is fetched and
    shown in the carousel, but the assignment to [albumsByFolder] creates no
    property, and the output has no album. *)
Theorem proto_folder_gets_no_album :
  let run := fetchAllImages Examples.node Examples.proto_folder 1 Examples.fresh in
  fst run = Some 0%Z /\
  folderItems Examples.proto_folder 1 (expressionOf "__proto__")
    = Some [Examples.converted "1"] /\
  option_map carouselImages (written (snd run)) = Some [Examples.converted "1"] /\
  option_map albums (written (snd run)) = Some [].
Proof.
  repeat split.
Qed.

(** ** Sample runs *)

Example formatFolderName_sample :
  formatFolderName "2024-sol_april" = "2024 Sol April".
Proof.
  reflexivity.
Qed.

(** Folder A with three photos, an empty folder B and one unfiled photo give
    one album and four carousel items. *)
Example two_folders_run :
  let run := fetchAllImages Examples.node Examples.two_folders 1 Examples.fresh in
  fst run = Some 0%Z /\
  option_map (fun o => map folder (albums o)) (written (snd run)) = Some ["A"] /\
  option_map totalImages (written (snd run)) = Some 4 /\
  option_map (fun o => List.length (carouselImages o)) (written (snd run)) = Some 4 /\
  requests (snd run) =
    [ListFolders; Search (expressionOf "A") Null; Search (expressionOf "B") Null;
     Search (expressionOf EmptyString) Null].
Proof.
  repeat split.
Qed.

(** A search page rejected for a reason other than credentials: the run
    stops after three requests with status 1, prints the error without the
    advice and leaves the old file. *)
Example rate_limited_run :
  fetchAllImages Examples.node Examples.rate_limited 9 Examples.stale =
    (Some 1%Z,
     mkWorld
       [ListFolders; Search (expressionOf "F") Null; Search (expressionOf "F") (Str "c1")]
       [TextAndError (newline ++ "✖ Error fetching images:")
                     (ErrorObject (Some "Rate Limit Exceeded"))]
       (Some (Bytes "{}"))).
Proof.
  reflexivity.
Qed.

(** A record without a URL in the middle of a page ends the run the same
    way, with the TypeError of the classifier. *)
Example malformed_record_run :
  let P := Examples.one_page_each
             [("A", [Examples.photo "1"; mkResource Undefined (Str "image") Undefined])] [] in
  fetchAllImages Examples.node P 1 Examples.fresh =
    (Some 1%Z,
     mkWorld
       [ListFolders; Search (expressionOf "A") Null]
       [TextAndError (newline ++ "✖ Error fetching images:")
          (TypeError "Cannot read properties of undefined (reading 'includes')")]
       None).
Proof.
  reflexivity.
Qed.

(** * Further properties *)

(** ** More on searching and splicing *)

Section MoreStringFacts.
Local Open Scope string_scope.

Lemma length_append (a b : string) :
  String.length (a ++ b) = String.length a + String.length b.
Proof.
  induction a as [|c a IH]; simpl; [reflexivity | now rewrite IH].
Qed.

Lemma slice_append (a b : string) : slice (String.length a) (a ++ b) = b.
Proof.
  induction a as [|c a IH]; simpl; [reflexivity | exact IH].
Qed.

Lemma prefix_append_short (p a x : string) :
  String.length p <= String.length a -> prefix p (a ++ x) = prefix p a.
Proof.
  revert a; induction p as [|c p IH]; intros a H.
  - now destruct a, x.
  - destruct a as [|d a]; [simpl in H; lia|].
    simpl. destruct (ascii_dec c d); [|reflexivity].
    apply IH. simpl in H. lia.
Qed.

Lemma prefix_weaken (p d s : string) :
  prefix (p ++ d) s = true -> prefix p s = true.
Proof.
  revert s; induction p as [|c p IH]; intros s H.
  - now destruct s.
  - destruct s as [|e s]; simpl in *; [discriminate|].
    destruct (ascii_dec c e); [now apply IH | discriminate].
Qed.

(** A splice after the pattern does not change how the string begins, as far
    as the length of the pattern. *)
Lemma prefix_replace (pat d s : string) :
  forall p, String.length p <= String.length pat ->
            prefix p (replace pat (pat ++ d) s) = prefix p s.
Proof.
  induction s as [|c s IH]; intros p Hp; cbn [replace].
  - destruct (prefix pat EmptyString) eqn:E; [|reflexivity].
    rewrite (prefix_slice _ _ E) at 2.
    rewrite append_assoc, !prefix_append_short by trivial. reflexivity.
  - destruct (prefix pat (String c s)) eqn:E.
    + rewrite (prefix_slice _ _ E) at 2.
      rewrite append_assoc, !prefix_append_short by trivial. reflexivity.
    + destruct p as [|e p]; [reflexivity|].
      simpl. destruct (ascii_dec e c); [|reflexivity].
      apply IH. simpl in Hp.
      destruct pat; simpl in *; lia.
Qed.

Lemma replace_here (pat rep s : string) :
  prefix pat s = true -> replace pat rep s = rep ++ slice (String.length pat) s.
Proof.
  intros H. destruct s; cbn [replace]; now rewrite H.
Qed.

Lemma replace_not_here (pat rep : string) (c : ascii) (s : string) :
  prefix pat (String c s) = false ->
  replace pat rep (String c s) = String c (replace pat rep s).
Proof.
  intros H. cbn [replace]. now rewrite H.
Qed.

(** Taking the inserted text out again gives the string back. *)
Lemma replace_undo (pat d s : string) :
  replace (pat ++ d) pat (replace pat (pat ++ d) s) = s.
Proof.
  assert (Hhere : forall s, prefix pat s = true ->
                            replace (pat ++ d) pat (replace pat (pat ++ d) s) = s).
  { intros s0 E. rewrite (replace_here pat (pat ++ d) s0 E).
    rewrite replace_here by apply prefix_append.
    rewrite slice_append. symmetry. now apply prefix_slice. }
  induction s as [|c s IH].
  - destruct (prefix pat EmptyString) eqn:E; [now apply Hhere|].
    cbn [replace]. rewrite E. cbn [replace].
    destruct (prefix (pat ++ d) EmptyString) eqn:E2; [|reflexivity].
    apply prefix_weaken in E2. congruence.
  - destruct (prefix pat (String c s)) eqn:E; [now apply Hhere|].
    assert (E2 : prefix (pat ++ d) (replace pat (pat ++ d) (String c s)) = false).
    { destruct (prefix (pat ++ d) (replace pat (pat ++ d) (String c s))) eqn:E2;
        [|reflexivity].
      apply prefix_weaken in E2. rewrite prefix_replace in E2 by lia. congruence. }
    rewrite (replace_not_here pat (pat ++ d) c s E) in E2 |- *.
    rewrite (replace_not_here _ _ _ _ E2). now rewrite IH.
Qed.

Lemma replace_length (pat rep s : string) :
  includes pat s = true ->
  String.length (replace pat rep s) + String.length pat
  = String.length s + String.length rep.
Proof.
  intros H. destruct (replace_splice pat rep s H) as (pre & post & Hs & -> & _).
  rewrite Hs at 1. rewrite !length_append. lia.
Qed.

Lemma replace_keeps_pattern (pat d s : string) :
  includes pat s = true -> includes pat (replace pat (pat ++ d) s) = true.
Proof.
  intros H. destruct (replace_splice pat (pat ++ d) s H) as (pre & post & _ & -> & _).
  rewrite append_assoc. apply includes_append.
Qed.

End MoreStringFacts.

(** ** More on the classifier *)

Lemma call_replace_Return (v w : value) (pat rep : string) :
  call_replace v pat rep = Return w ->
  exists u, v = Str u /\ w = Str (replace pat rep u).
Proof.
  destruct v; cbn; try discriminate. intros H. injection H as <-. now eexists.
Qed.

(** The branches of [convertToBrowserFormat] that return. *)
Lemma convert_Return (r : resource) (i : item) :
  convertToBrowserFormat r = Return i ->
  (isHEICVideo r = true /\
   i = mkItem (secure_url r) (secure_url r) true (Some true)) \/
  (isHEICVideo r = false /\ resource_type r = Str "video" /\
   exists u, secure_url r = Str u /\
     i = mkItem (Str (replace "/video/upload/" "/video/upload/so_0,f_jpg,q_auto/" u))
                (Str u) true None) \/
  (resource_type r <> Str "video" /\
   exists u, secure_url r = Str u /\
     i = mkItem (Str (replace "/image/upload/" "/image/upload/f_auto,q_auto/" u))
                (Str u) false None) \/
  (resource_type r <> Str "video" /\
   exists l, secure_url r = Arr l /\ i = mkItem (Arr l) (Arr l) false None).
Proof.
  intros H. destruct (isHEICVideo r) eqn:Hlive.
  - left. split; [reflexivity|]. unfold convertToBrowserFormat in H.
    rewrite Hlive in H. now injection H as <-.
  - right. destruct (strict_eq (resource_type r) (Str "video")) eqn:Hkind.
    + left. split; [reflexivity|]. split; [now apply strict_eq_Str|].
      unfold convertToBrowserFormat in H. rewrite Hlive, Hkind in H.
      destruct (call_replace (secure_url r) _ _) as [w|e] eqn:E; [|discriminate].
      apply call_replace_Return in E as (u & Hu & ->).
      cbn [bind] in H. injection H as <-. exists u. now rewrite Hu.
    + right.
      assert (Hne : resource_type r <> Str "video").
      { intros E. apply strict_eq_Str in E. congruence. }
      destruct (secure_url r) as [| |b|z|u|l] eqn:Hu.
      5: { left. split; [exact Hne|]. exists u. split; [reflexivity|].
           rewrite (convert_still r u Hne Hu) in H. now injection H as <-. }
      5: { right. split; [exact Hne|]. exists l. split; [reflexivity|].
           unfold convertToBrowserFormat in H. rewrite Hlive, Hkind, Hu in H.
           cbn [call_replace call_includes bind] in H.
           destruct (strict_eq (format r) (Str "heic") || strict_eq (format r) (Str "heif"));
             [discriminate|].
           destruct (existsb (fun x => strict_eq x (Str "/image/upload/")) l);
             [discriminate|].
           now injection H as <-. }
      all: unfold convertToBrowserFormat in H; rewrite Hlive, Hkind, Hu in H;
        destruct (strict_eq (format r) (Str "heic") || strict_eq (format r) (Str "heif"));
        discriminate.
Qed.

(** X1: what every returned item satisfies: [originalUrl] is the record's
    secure URL, [isVideo] says whether the resource kind is video, the
    live-photo flag whether the record is a heic video; so a live photo is
    always a video, and its [url] is its [originalUrl]. *)
Theorem classified_item_shape (r : resource) (i : item)
    (Hi : convertToBrowserFormat r = Return i) :
  originalUrl i = secure_url r /\
  isVideo i = strict_eq (resource_type r) (Str "video") /\
  isLivePhoto i = isHEICVideo r /\
  (isLivePhoto i = true -> isVideo i = true /\ url i = originalUrl i).
Proof.
  assert (Hstill : resource_type r <> Str "video" -> isHEICVideo r = false).
  { intros Hkind. unfold isHEICVideo.
    rewrite (strict_eq_Str_false (resource_type r)) by trivial. apply andb_false_r. }
  apply convert_Return in Hi
    as [(Hlive & ->)|[(Hlive & Hkind & u & Hu & ->)|
        [(Hkind & u & Hu & ->)|(Hkind & l & Hu & ->)]]];
    cbn [originalUrl isVideo isLivePhoto isHEICLivePhoto url].
  - apply isHEICVideo_iff in Hlive as Hboth. destruct Hboth as [_ Hk].
    rewrite Hk, Hlive. repeat split.
  - rewrite Hkind, Hlive, Hu. repeat split; discriminate.
  - rewrite (strict_eq_Str_false _ _ Hkind), Hu, (Hstill Hkind).
    repeat split; discriminate.
  - rewrite (strict_eq_Str_false _ _ Hkind), Hu, (Hstill Hkind).
    repeat split; discriminate.
Qed.

Lemma classified_item_shape_witness :
  let r := Examples.photo "1" in
  let i := Examples.converted "1" in
  convertToBrowserFormat r = Return i /\
  originalUrl i = secure_url r /\
  isVideo i = strict_eq (resource_type r) (Str "video") /\
  isLivePhoto i = isHEICVideo r /\
  (isLivePhoto i = true -> isVideo i = true /\ url i = originalUrl i).
Proof.
  intros r i.
  assert (H : convertToBrowserFormat r = Return i) by reflexivity.
  split; [exact H|].
  exact (classified_item_shape r i H).
Defined.

(** X2: the classifier loses nothing: when an item is not a live photo, its
    original URL is its [url] with the first inserted directive taken out
    again (the poster directive for a video, the automatic format directive
    otherwise). *)
Theorem url_without_directive_is_original (r : resource) (i : item) (u' : string)
    (Hi : convertToBrowserFormat r = Return i)
    (Hplain : isLivePhoto i = false)
    (Hurl : url i = Str u') :
  originalUrl i =
    Str (if isVideo i
         then replace "/video/upload/so_0,f_jpg,q_auto/" "/video/upload/" u'
         else replace "/image/upload/f_auto,q_auto/" "/image/upload/" u').
Proof.
  apply convert_Return in Hi
    as [(Hlive & ->)|[(Hlive & Hkind & u & Hu & ->)|
        [(Hkind & u & Hu & ->)|(Hkind & l & Hu & ->)]]];
    cbn [originalUrl isVideo isLivePhoto isHEICLivePhoto url] in *.
  - discriminate.
  - injection Hurl as <-. f_equal. symmetry.
    apply (replace_undo "/video/upload/" "so_0,f_jpg,q_auto/").
  - injection Hurl as <-. f_equal. symmetry.
    apply (replace_undo "/image/upload/" "f_auto,q_auto/").
  - discriminate.
Qed.

Lemma url_without_directive_is_original_witness :
  let r := mkResource (Str "https://res.cloudinary.com/ddnebrkpu/video/upload/v1/clip.mov")
                      (Str "video") (Str "mov") in
  let u' := "https://res.cloudinary.com/ddnebrkpu/video/upload/so_0,f_jpg,q_auto/v1/clip.mov" in
  let i := mkItem (Str u') (secure_url r) true None in
  (convertToBrowserFormat r = Return i /\ isLivePhoto i = false /\ url i = Str u') /\
  originalUrl i =
    Str (if isVideo i
         then replace "/video/upload/so_0,f_jpg,q_auto/" "/video/upload/" u'
         else replace "/image/upload/f_auto,q_auto/" "/image/upload/" u').
Proof.
  intros r u' i.
  assert (H : convertToBrowserFormat r = Return i /\ isLivePhoto i = false /\
              url i = Str u') by (repeat split).
  split; [exact H|].
  destruct H as (Hi & Hp & Hu).
  exact (url_without_directive_is_original r i u' Hi Hp Hu).
Defined.

(** X3: the classifier does not look for a directive that is already there:
    for a record that is not a video and whose URL has the image segment, the
    [url] is 14 characters longer than the secure URL and still has the
    segment, so classifying a record with that [url] as its secure URL
    inserts the directive once more. *)
Theorem classifier_inserts_again (r r' : resource) (u : string) (i : item)
    (Hkind : resource_type r <> Str "video")
    (Hkind' : resource_type r' <> Str "video")
    (Hurl : secure_url r = Str u)
    (Hseg : includes image_segment u = true)
    (Hi : convertToBrowserFormat r = Return i)
    (Hagain : secure_url r' = url i) :
  exists u' u'' i',
    url i = Str u' /\ String.length u' = String.length u + 14 /\
    convertToBrowserFormat r' = Return i' /\
    url i' = Str u'' /\ String.length u'' = String.length u' + 14.
Proof.
  rewrite (convert_still r u Hkind Hurl) in Hi. injection Hi as <-.
  cbn [url] in Hagain.
  set (u' := replace "/image/upload/" "/image/upload/f_auto,q_auto/" u) in *.
  exists u', (replace "/image/upload/" "/image/upload/f_auto,q_auto/" u'); eexists.
  assert (Hlen : String.length u' = String.length u + 14).
  { pose proof (replace_length "/image/upload/" "/image/upload/f_auto,q_auto/" u Hseg) as H.
    cbn [String.length] in H. fold u' in H. lia. }
  assert (Hseg' : includes "/image/upload/" u' = true)
    by apply (replace_keeps_pattern "/image/upload/" "f_auto,q_auto/" u Hseg).
  split; [reflexivity|]. split; [exact Hlen|].
  split; [exact (convert_still r' u' Hkind' Hagain)|].
  split; [reflexivity|].
  pose proof (replace_length "/image/upload/" "/image/upload/f_auto,q_auto/" u' Hseg') as H.
  cbn [String.length] in H. lia.
Qed.

Lemma classifier_inserts_again_witness :
  let r := Examples.photo "1" in
  let i := Examples.converted "1" in
  let r' := mkResource (url i) (Str "image") (Str "jpg") in
  let u := "https://res.cloudinary.com/ddnebrkpu/image/upload/v1/1.jpg" in
  (resource_type r <> Str "video" /\ resource_type r' <> Str "video" /\
   secure_url r = Str u /\ includes image_segment u = true /\
   convertToBrowserFormat r = Return i /\ secure_url r' = url i) /\
  exists u' u'' i',
    url i = Str u' /\ String.length u' = String.length u + 14 /\
    convertToBrowserFormat r' = Return i' /\
    url i' = Str u'' /\ String.length u'' = String.length u' + 14.
Proof.
  intros r i r' u.
  assert (H : resource_type r <> Str "video" /\ resource_type r' <> Str "video" /\
              secure_url r = Str u /\ includes image_segment u = true /\
              convertToBrowserFormat r = Return i /\ secure_url r' = url i)
    by (repeat split; discriminate).
  split; [exact H|].
  destruct H as (H1 & H2 & H3 & H4 & H5 & H6).
  exact (classifier_inserts_again r r' u i H1 H2 H3 H4 H5 H6).
Defined.

(** X4: on a record that is not a video the two variants of the script agree:
    the [url] of the item is what the URL-only [convertToBrowserFormat]
    returns for the record's secure URL. *)
Theorem variants_agree_on_stills (r : resource) (u : string)
    (Hkind : resource_type r <> Str "video")
    (Hurl : secure_url r = Str u) :
  exists i,
    convertToBrowserFormat r = Return i /\
    UrlOnly.convertToBrowserFormat (secure_url r) = Return (url i).
Proof.
  eexists. split; [exact (convert_still r u Hkind Hurl)|].
  rewrite Hurl. unfold UrlOnly.convertToBrowserFormat. cbn [call_includes bind url].
  destruct (includes "/image/upload/" u) eqn:E; cbn [negb call_replace].
  - reflexivity.
  - now rewrite includes_false_replace.
Qed.

Lemma variants_agree_on_stills_witness :
  let r := Examples.photo "1" in
  (resource_type r <> Str "video" /\
   secure_url r = Str "https://res.cloudinary.com/ddnebrkpu/image/upload/v1/1.jpg") /\
  exists i,
    convertToBrowserFormat r = Return i /\
    UrlOnly.convertToBrowserFormat (secure_url r) = Return (url i).
Proof.
  intros r.
  assert (H : resource_type r <> Str "video" /\
              secure_url r = Str "https://res.cloudinary.com/ddnebrkpu/image/upload/v1/1.jpg")
    by (split; [discriminate | reflexivity]).
  split; [exact H|].
  exact (variants_agree_on_stills r _ (proj1 H) (proj2 H)).
Defined.

(** X5: a page is classified as a whole: [convertAll] returns a list exactly
    when every record of the page is classified, one item per record and in
    the order of the records. *)
Theorem page_classified_record_by_record (rs : list resource) (items : list item) :
  convertAll rs = Return items <->
  Forall2 (fun r i => convertToBrowserFormat r = Return i) rs items.
Proof.
  revert items; induction rs as [|r rs IH]; intros items; cbn [convertAll].
  - split.
    + intros H. injection H as <-. constructor.
    + intros H. now inversion H.
  - split.
    + intros H. destruct (convertToBrowserFormat r) as [i|e] eqn:Hi; [|discriminate].
      cbn [bind] in H.
      destruct (convertAll rs) as [items'|e] eqn:Hrest; [|discriminate].
      cbn [bind] in H. injection H as <-.
      constructor; [exact Hi | now apply IH].
    + intros H. inversion H as [|? i ? items' Hi Hrest]; subst.
      rewrite Hi. cbn [bind]. apply IH in Hrest. now rewrite Hrest.
Qed.

Lemma page_classified_record_by_record_witness :
  convertAll [Examples.photo "1"; Examples.photo "2"]
    = Return [Examples.converted "1"; Examples.converted "2"].
Proof.
  apply (proj2 (page_classified_record_by_record _ _)).
  repeat constructor.
Defined.

(** The first record that cannot be classified decides the exception of
    the page. *)
Lemma convertAll_Throw (rs : list resource) (e : thrown) :
  convertAll rs = Throw e ->
  exists before r rest items,
    rs = before ++ r :: rest /\
    convertAll before = Return items /\
    convertToBrowserFormat r = Throw e.
Proof.
  induction rs as [|r rs IH]; cbn [convertAll]; [discriminate|].
  destruct (convertToBrowserFormat r) as [i|e'] eqn:Hi; cbn [bind].
  - destruct (convertAll rs) as [items|e'] eqn:Hrest; cbn [bind]; [discriminate|].
    intros H. injection H as ->.
    destruct (IH eq_refl) as (before & r' & rest & items & -> & Hb & Hr').
    exists (r :: before), r', rest, (i :: items). repeat split; trivial.
    cbn [convertAll]. now rewrite Hi, Hb.
  - intros H. injection H as ->. exists [], r, rs, []. now repeat split.
Qed.

(** X6: a page fails as soon as one record does: when [convertAll] throws,
    the exception is that of the first record the classifier rejects, and
    every record before it was classified. *)
Theorem page_fails_at_first_bad_record (rs : list resource) (e : thrown)
    (Hthrow : convertAll rs = Throw e) :
  exists before r rest items,
    rs = before ++ r :: rest /\
    Forall2 (fun r i => convertToBrowserFormat r = Return i) before items /\
    convertToBrowserFormat r = Throw e /\
    (forall u, secure_url r <> Str u).
Proof.
  apply convertAll_Throw in Hthrow as (before & r & rest & items & Hrs & Hb & Hr).
  exists before, r, rest, items. repeat split; trivial.
  - now apply convertAll_Forall2.
  - intros u Hu. unfold convertToBrowserFormat in Hr. rewrite Hu in Hr.
    cbn [call_replace call_includes bind] in Hr.
    destruct (isHEICVideo r); [discriminate|].
    destruct (strict_eq (resource_type r) (Str "video")); [discriminate|].
    destruct (strict_eq (format r) (Str "heic") || strict_eq (format r) (Str "heif"));
      [discriminate|].
    destruct (includes "/image/upload/" u); discriminate.
Qed.

Lemma page_fails_at_first_bad_record_witness :
  let bad := mkResource Undefined (Str "image") Undefined in
  let rs := [Examples.photo "1"; bad; Examples.photo "2"] in
  let e := TypeError "Cannot read properties of undefined (reading 'includes')" in
  convertAll rs = Throw e /\
  exists before r rest items,
    rs = before ++ r :: rest /\
    Forall2 (fun r i => convertToBrowserFormat r = Return i) before items /\
    convertToBrowserFormat r = Throw e /\
    (forall u, secure_url r <> Str u).
Proof.
  intros bad rs e.
  assert (H : convertAll rs = Throw e) by reflexivity.
  split; [exact H|].
  exact (page_fails_at_first_bad_record rs e H).
Defined.

(** ** Folder titles *)

Section TitleFacts.
Local Open Scope string_scope.

Lemma toUpperCase_idempotent (c : ascii) :
  toUpperCase (toUpperCase c) = toUpperCase c.
Proof.
  destruct c as [[] [] [] [] [] [] [] []]; reflexivity.
Qed.

Lemma toUpperCase_separator (c : ascii) :
  is_separator (toUpperCase c) = is_separator c.
Proof.
  destruct c as [[] [] [] [] [] [] [] []]; reflexivity.
Qed.

Lemma toUpperCase_not_lower (c : ascii) :
  is_lower c = false -> toUpperCase c = c.
Proof.
  unfold toUpperCase, is_lower. now intros ->.
Qed.

Lemma split_not_nil (sep : ascii -> bool) (s : string) : split sep s <> [].
Proof.
  destruct s as [|c s]; cbn [split]; [discriminate|].
  destruct (sep c); [discriminate|]. destruct (split sep s); discriminate.
Qed.

Lemma split_append (sep : ascii -> bool) (c : ascii) (a b : string) :
  sep c = true ->
  split sep (a ++ String c b) = (split sep a ++ split sep b)%list.
Proof.
  intros Hc. induction a as [|d a IH].
  - cbn. now rewrite Hc.
  - change (String d a ++ String c b) with (String d (a ++ String c b)).
    cbn [split]. rewrite IH. destruct (sep d); [reflexivity|].
    destruct (split sep a) as [|w ws] eqn:E; [now apply split_not_nil in E|].
    reflexivity.
Qed.

Lemma split_plain (sep : ascii -> bool) (s : string) :
  forallb (fun c => negb (sep c)) (chars s) = true -> split sep s = [s].
Proof.
  induction s as [|c s IH]; cbn [chars forallb split]; [reflexivity|].
  intros H. apply andb_true_iff in H as [Hc Hs].
  apply negb_true_iff in Hc. rewrite Hc, (IH Hs). reflexivity.
Qed.

Lemma concat_app (sep : string) (l1 l2 : list string) :
  l1 <> [] -> l2 <> [] ->
  String.concat sep (l1 ++ l2) = String.concat sep l1 ++ sep ++ String.concat sep l2.
Proof.
  intros H1 H2. induction l1 as [|x l1 IH]; [now elim H1|].
  destruct l1 as [|y l1].
  - destruct l2 as [|z l2]; [now elim H2 | reflexivity].
  - change (String.concat sep ((x :: y :: l1) ++ l2))
      with (x ++ sep ++ String.concat sep ((y :: l1) ++ l2)).
    rewrite IH by discriminate.
    change (String.concat sep (x :: y :: l1))
      with (x ++ sep ++ String.concat sep (y :: l1)).
    now rewrite !append_assoc.
Qed.

(** X7: a separator splits the work: the title of [a-b] (or [a_b]) is the
    title of [a], a space, and the title of [b]. *)
Theorem title_of_joined_names (c : ascii) (a b : string)
    (Hc : is_separator c = true) :
  formatFolderName (a ++ String c b)
  = formatFolderName a ++ " " ++ formatFolderName b.
Proof.
  unfold formatFolderName. rewrite (split_append _ _ _ _ Hc), map_app.
  apply concat_app; intros E; apply map_eq_nil in E; now apply split_not_nil in E.
Qed.

Lemma title_of_joined_names_witness :
  is_separator "_" = true /\
  formatFolderName ("2024-sol" ++ String "_" "april")
  = formatFolderName "2024-sol" ++ " " ++ formatFolderName "april".
Proof.
  split; [reflexivity|].
  exact (title_of_joined_names "_" "2024-sol" "april" eq_refl).
Defined.

(** X8: a folder name without [-] and [_] whose first character is an ASCII
    character other than a lower-case letter is its own title. *)
Theorem title_of_plain_name (c : ascii) (s : string)
    (Hplain : forallb (fun c => negb (is_separator c)) (chars (String c s)) = true)
    (Hfirst : is_ascii c && negb (is_lower c) = true) :
  formatFolderName (String c s) = String c s.
Proof.
  unfold formatFolderName. rewrite (split_plain _ _ Hplain).
  cbn [map capitalize String.concat].
  apply andb_true_iff in Hfirst as [_ Hlow]. apply negb_true_iff in Hlow.
  now rewrite toUpperCase_not_lower.
Qed.

Lemma title_of_plain_name_witness :
  (forallb (fun c => negb (is_separator c)) (chars "2024, SOL April") = true /\
   is_ascii "2" && negb (is_lower "2") = true) /\
  formatFolderName "2024, SOL April" = "2024, SOL April".
Proof.
  split; [split; reflexivity|].
  exact (title_of_plain_name "2" "024, SOL April" eq_refl eq_refl).
Defined.

End TitleFacts.

Section TitleShape.
Local Open Scope string_scope.

Lemma chars_append (a b : string) : chars (a ++ b) = (chars a ++ chars b)%list.
Proof.
  induction a as [|c a IH]; cbn; [reflexivity | now rewrite IH].
Qed.

Lemma plain_append (a b : string) : plain a -> plain b -> plain (a ++ b).
Proof.
  unfold plain. intros Ha Hb. rewrite chars_append, forallb_app, Ha, Hb. reflexivity.
Qed.

Lemma split_words_plain (s : string) :
  Forall (fun w => plain w) (split is_separator s).
Proof.
  unfold plain. induction s as [|c s IH]; cbn [split].
  - repeat constructor.
  - destruct (is_separator c) eqn:Hc.
    + constructor; [reflexivity | exact IH].
    + destruct (split is_separator s) as [|w ws]; [repeat constructor; cbn; now rewrite Hc|].
      inversion_clear IH as [|? ? Hw Hws]. constructor; [|exact Hws].
      cbn [chars forallb]. now rewrite Hc, Hw.
Qed.

Lemma capitalize_plain (w : string) : plain w -> plain (capitalize w).
Proof.
  unfold plain. destruct w as [|c w]; cbn [capitalize chars forallb]; [trivial|].
  now rewrite toUpperCase_separator.
Qed.

Lemma concat_plain (ws : list string) :
  Forall (fun w => plain w) ws -> plain (String.concat " " ws).
Proof.
  induction 1 as [|w ws Hw Hws IH]; [reflexivity|].
  destruct ws as [|w' ws]; [exact Hw|].
  change (String.concat " " (w :: w' :: ws))
    with (w ++ " " ++ String.concat " " (w' :: ws)).
  apply plain_append; [exact Hw|]. apply plain_append; [reflexivity | exact IH].
Qed.

Lemma formatFolderName_plain (s : string) : plain (formatFolderName s).
Proof.
  unfold formatFolderName. apply concat_plain.
  apply Forall_map. eapply Forall_impl; [|apply split_words_plain].
  intros w. apply capitalize_plain.
Qed.

Lemma capitalize_length (w : string) :
  String.length (capitalize w) = String.length w.
Proof.
  now destruct w.
Qed.

Lemma concat_capitalize_length (ws : list string) :
  String.length (String.concat " " (map capitalize ws))
  = String.length (String.concat " " ws).
Proof.
  induction ws as [|w ws IH]; [reflexivity|].
  destruct ws as [|w' ws]; [apply capitalize_length|].
  change (String.length (capitalize w ++ " " ++
                         String.concat " " (map capitalize (w' :: ws)))
          = String.length (w ++ " " ++ String.concat " " (w' :: ws))).
  rewrite !length_append, IH, capitalize_length. reflexivity.
Qed.

Lemma concat_split_length (s : string) :
  String.length (String.concat " " (split is_separator s)) = String.length s.
Proof.
  induction s as [|c s IH]; cbn [split]; [reflexivity|].
  destruct (is_separator c).
  - destruct (split is_separator s) as [|w ws] eqn:E; [now apply split_not_nil in E|].
    change (String.concat " " (EmptyString :: w :: ws))
      with (EmptyString ++ " " ++ String.concat " " (w :: ws)).
    cbn. now rewrite <- IH.
  - destruct (split is_separator s) as [|w ws] eqn:E; [now apply split_not_nil in E|].
    destruct ws as [|w' ws]; cbn in IH |- *; now rewrite IH.
Qed.

Lemma capitalize_concat (ws : list string) :
  capitalize (String.concat " " (map capitalize ws))
  = String.concat " " (map capitalize ws).
Proof.
  destruct ws as [|w ws]; [reflexivity|].
  destruct ws as [|w' ws].
  - destruct w as [|c w]; cbn; [reflexivity | now rewrite toUpperCase_idempotent].
  - change (String.concat " " (map capitalize (w :: w' :: ws)))
      with (capitalize w ++ " " ++ String.concat " " (map capitalize (w' :: ws))).
    destruct w as [|c w]; cbn; [reflexivity | now rewrite toUpperCase_idempotent].
Qed.

(** X9: on an ASCII folder name the title has the length of the name and
    contains neither [-] nor [_], and formatting a title again changes
    nothing. *)
Theorem title_shape (s : string) (Hascii : ascii_only s = true) :
  String.length (formatFolderName s) = String.length s /\
  forallb (fun c => negb (is_separator c)) (chars (formatFolderName s)) = true /\
  formatFolderName (formatFolderName s) = formatFolderName s.
Proof.
  split; [|split].
  - unfold formatFolderName. now rewrite concat_capitalize_length, concat_split_length.
  - apply formatFolderName_plain.
  - unfold formatFolderName at 1.
    rewrite (split_plain _ _ (formatFolderName_plain s)).
    cbn [map String.concat]. apply capitalize_concat.
Qed.

Lemma title_shape_witness :
  ascii_only "2024-sol_april" = true /\
  String.length (formatFolderName "2024-sol_april") = 14 /\
  forallb (fun c => negb (is_separator c)) (chars (formatFolderName "2024-sol_april"))
    = true /\
  formatFolderName (formatFolderName "2024-sol_april") = formatFolderName "2024-sol_april".
Proof.
  split; [reflexivity|].
  exact (title_shape "2024-sol_april" eq_refl).
Defined.

End TitleShape.

(** ** More on the order of the albums *)

Section MoreSortFacts.
Context {A : Type} (comparefn : A -> A -> comparison).

Lemma insert_first (x : A) (l : list A) :
  HdRel (may_precede comparefn) x l -> insert comparefn x l = x :: l.
Proof.
  destruct l as [|y l]; [reflexivity|].
  intros H. inversion_clear H as [|? ? Hxy]. cbn [insert].
  unfold may_precede in Hxy. now destruct (comparefn x y).
Qed.

Lemma sort_of_sorted (l : list A) :
  Sorted (may_precede comparefn) l -> sort comparefn l = l.
Proof.
  induction 1 as [|x l Hl IH Hx]; cbn [sort]; [reflexivity|].
  rewrite IH. now apply insert_first.
Qed.

(** Elements that the comparison never puts after one another keep their
    order. *)
Lemma sort_stable (p : A -> bool) (l : list A) :
  (forall x y, p x = true -> p y = true -> comparefn x y <> Gt) ->
  filter p (sort comparefn l) = filter p l.
Proof.
  intros Hties.
  assert (Hins : forall x l, filter p (insert comparefn x l) = filter p (x :: l)).
  { intros x l0. induction l0 as [|y l0 IH]; [reflexivity|].
    cbn [insert]. destruct (comparefn x y) eqn:E; try reflexivity.
    cbn [filter] in IH |- *. rewrite IH.
    destruct (p x) eqn:Hx, (p y) eqn:Hy; try reflexivity.
    now elim (Hties x y Hx Hy). }
  induction l as [|x l IH]; [reflexivity|].
  cbn [sort]. rewrite Hins. cbn [filter]. now rewrite IH.
Qed.

End MoreSortFacts.

(** X10: sorting is settled after one pass: a list of albums that is already
    in descending order of the titles is returned as it is, and so is the
    result of a sort when it is sorted again. *)
Theorem resorting_is_noop (compare : string -> string -> comparison)
    (l : list album) (Hhost : consistent compare) :
  (descending compare l -> sortAlbums compare l = l) /\
  sortAlbums compare (sortAlbums compare l) = sortAlbums compare l.
Proof.
  assert (H : forall l', descending compare l' -> sortAlbums compare l' = l').
  { intros l' Hl'. apply sort_of_sorted. now apply Sorted_LocallySorted_iff. }
  split; [apply H|]. apply H. now apply sortAlbums_descending.
Qed.

Lemma resorting_is_noop_witness :
  let l := map (toAlbum albumCovers)
               [("2023-april", [Examples.converted "1"]);
                ("2024-april", [Examples.converted "2"]);
                ("2022-april", [Examples.converted "3"])] in
  consistent Collation.localeCompare /\
  sortAlbums Collation.localeCompare (sortAlbums Collation.localeCompare l)
  = sortAlbums Collation.localeCompare l.
Proof.
  intros l. split; [exact localeCompare_consistent|].
  exact (proj2 (resorting_is_noop Collation.localeCompare l localeCompare_consistent)).
Defined.

(** X11: the sort is stable where it matters: when the comparison does not
    put a title after itself, the albums that carry this title come out in
    the order they went in. *)
Theorem albums_of_one_title_keep_order (compare : string -> string -> comparison)
    (t : string) (l : list album) (Hrefl : compare t t <> Gt) :
  filter (fun a => title a =? t)%string (sortAlbums compare l)
  = filter (fun a => title a =? t)%string l.
Proof.
  apply sort_stable. intros x y Hx Hy.
  apply String.eqb_eq in Hx, Hy. now rewrite Hx, Hy.
Qed.

Lemma albums_of_one_title_keep_order_witness :
  let l := map (toAlbum albumCovers)
               [("a_b", [Examples.converted "1"]);
                ("zoo", [Examples.converted "2"]);
                ("a-b", [Examples.converted "3"])] in
  Collation.localeCompare "A B" "A B" <> Gt /\
  map folder (filter (fun a => title a =? "A B")%string
                     (sortAlbums Collation.localeCompare l))
  = ["a_b"; "a-b"].
Proof.
  intros l.
  assert (H : Collation.localeCompare "A B" "A B" <> Gt) by discriminate.
  split; [exact H|].
  rewrite (albums_of_one_title_keep_order Collation.localeCompare "A B" l H).
  reflexivity.
Defined.

(** ** Runs and the world they start in *)

Lemma after_nil (w : world) : after w [] = w.
Proof.
  destruct w. unfold after; cbn. now rewrite app_nil_r.
Qed.

Lemma uniform_ret {A : Type} (a : A) : uniform (ret a).
Proof.
  exists (Some (Return a)), []. intros w. now rewrite after_nil.
Qed.

Lemma uniform_lift {A : Type} (c : completion A) : uniform (lift c).
Proof.
  exists (Some c), []. intros w. now rewrite after_nil.
Qed.

Lemma uniform_out_of_fuel {A : Type} : uniform (@out_of_fuel A).
Proof.
  exists None, []. intros w. now rewrite after_nil.
Qed.

Lemma uniform_bind {A B : Type} (m : M A) (k : A -> M B) :
  uniform m -> (forall a, uniform (k a)) -> uniform (mbind m k).
Proof.
  intros (out & rs & Hm) Hk. unfold mbind.
  destruct out as [[a|e]|].
  - destruct (Hk a) as (out2 & rs2 & Hka).
    exists out2, (rs ++ rs2). intros w. now rewrite Hm, Hka, after_after.
  - exists (Some (Throw e)), rs. intros w. now rewrite Hm.
  - exists None, rs. intros w. now rewrite Hm.
Qed.

Section Uniform.
Variables (h : host) (P : provider).

Lemma uniform_call_root_folders : uniform (call_root_folders P).
Proof.
  exists (Some (root_folders P)), [ListFolders]. reflexivity.
Qed.

Lemma uniform_call_execute (e : string) (c : value) : uniform (call_execute P e c).
Proof.
  exists (Some (execute P e c)), [Search e c]. reflexivity.
Qed.

Lemma uniform_fetchPages (fuel : nat) (e : string) :
  forall (c : value) (fi all : list item), uniform (fetchPages P fuel e c fi all).
Proof.
  induction fuel as [|fuel IH]; intros c fi all; cbn [fetchPages].
  - apply uniform_out_of_fuel.
  - apply uniform_bind; [apply uniform_call_execute|]. intros result.
    apply uniform_bind; [apply uniform_lift|]. intros items.
    destruct (truthy (next_cursor result)); [apply IH | apply uniform_ret].
Qed.

Lemma uniform_forFolders (fuel : nat) (fs : list folder_entry) :
  forall (o : Obj.t (list item)) (all : list item),
    uniform (forFolders P fuel fs o all).
Proof.
  induction fs as [|f fs IH]; intros o all; cbn [forFolders].
  - apply uniform_ret.
  - apply uniform_bind; [apply uniform_fetchPages|]. intros [fi all']. apply IH.
Qed.

Lemma uniform_buildOutput (fuel : nat) : uniform (buildOutput h P fuel).
Proof.
  unfold buildOutput.
  apply uniform_bind; [apply uniform_call_root_folders|]. intros result.
  apply uniform_bind; [apply uniform_forFolders|]. intros [o all].
  apply uniform_bind; [apply uniform_fetchPages|]. intros [root all'].
  apply uniform_ret.
Qed.

End Uniform.

(** X12: a run owes nothing to what it finds: the exit status, the requests
    sent, the lines printed to the error stream and, on status 0, the
    document written are the same whatever [images.json], the error stream
    and the request log held before. *)
Theorem run_ignores_previous_state (h : host) (P : provider) (fuel : nat)
    (w1 w2 : world) :
  let run1 := fetchAllImages h P fuel w1 in
  let run2 := fetchAllImages h P fuel w2 in
  fst run1 = fst run2 /\
  issued w1 (snd run1) = issued w2 (snd run2) /\
  skipn (List.length (stderr w1)) (stderr (snd run1))
    = skipn (List.length (stderr w2)) (stderr (snd run2)) /\
  (fst run1 = Some 0%Z ->
   images_json (snd run1) = images_json (snd run2) /\
   exists o, images_json (snd run1) = Some (Json o)).
Proof.
  cbv zeta. unfold fetchAllImages, tryBlock, mbind.
  destruct (uniform_buildOutput h P fuel) as (out & rs & H).
  rewrite !H. destruct out as [[o|e]|]; cbn [fst snd].
  - unfold writeFileSync; cbn [fst snd requests stderr images_json after].
    repeat split.
    + unfold issued; cbn. now rewrite !skipn_app, !skipn_all, !Nat.sub_diag.
    + now rewrite !skipn_all.
    + now exists o.
  - unfold catchBlock; cbn [fst snd requests stderr images_json after].
    repeat split.
    + unfold issued; cbn. now rewrite !skipn_app, !skipn_all, !Nat.sub_diag.
    + now rewrite !skipn_app, !skipn_all, !Nat.sub_diag.
    + discriminate.
    + discriminate.
  - repeat split.
    + now rewrite !issued_after.
    + cbn. now rewrite !skipn_all.
    + discriminate.
    + discriminate.
Qed.

(** ** Where exceptions come from *)

Lemma convert_Throw (r : resource) (e : thrown) :
  convertToBrowserFormat r = Throw e -> exists msg, e = TypeError msg.
Proof.
  unfold convertToBrowserFormat, call_replace, call_includes, not_callable.
  destruct (isHEICVideo r); [discriminate|].
  destruct (strict_eq (resource_type r) (Str "video")).
  - destruct (secure_url r); cbn [bind]; intros H; try discriminate;
      injection H as <-; eexists; reflexivity.
  - destruct (strict_eq (format r) (Str "heic") || strict_eq (format r) (Str "heif")).
    + destruct (secure_url r); cbn [bind]; intros H; try discriminate;
        injection H as <-; eexists; reflexivity.
    + destruct (secure_url r) as [| |b|z|u|l]; cbn [bind]; intros H;
        try (injection H as <-; eexists; reflexivity).
      * destruct (includes "/image/upload/" u); discriminate.
      * destruct (existsb (fun x => strict_eq x (Str "/image/upload/")) l);
          cbn [bind] in H; [|discriminate].
        injection H as <-. eexists; reflexivity.
Qed.

Section Sound.
Variable P : provider.

Lemma sound_ret {A : Type} (a : A) : sound P (ret a).
Proof.
  intros w out w' H. injection H as <- <-. exists []. rewrite after_nil.
  repeat split; constructor.
Qed.

Lemma sound_out_of_fuel {A : Type} : sound P (@out_of_fuel A).
Proof.
  intros w out w' H. injection H as <- <-. exists []. rewrite after_nil.
  repeat split; constructor.
Qed.

Lemma sound_convertAll (rs : list resource) : sound P (lift (convertAll rs)).
Proof.
  intros w out w' H. injection H as <- <-. exists []. rewrite after_nil.
  split; [reflexivity|]. split; [constructor|].
  destruct (convertAll rs) as [items|e] eqn:E; [constructor|].
  right. split; [constructor|].
  apply convertAll_Throw in E as (before & r & rest & items & _ & _ & Hr).
  now apply convert_Throw in Hr.
Qed.

Lemma sound_call_execute (e : string) (c : value) : sound P (call_execute P e c).
Proof.
  intros w out w' H. rewrite call_execute_run in H. injection H as <- <-.
  exists [Search e c]. split; [reflexivity|]. split; [repeat constructor|].
  destruct (execute P e c) as [page|e'] eqn:E.
  - repeat constructor. cbn. now rewrite E.
  - left. exists [], (Search e c). repeat split; [constructor|].
    cbn. now rewrite E.
Qed.

Lemma sound_bind {A B : Type} (m : M A) (k : A -> M B) :
  sound P m -> (forall a, sound P (k a)) -> sound P (mbind m k).
Proof.
  intros Hm Hk w out w' H. unfold mbind in H.
  destruct (m w) as [o1 w1] eqn:E1.
  destruct (Hm _ _ _ E1) as (rs1 & -> & Hs1 & Ho1).
  destruct o1 as [[a|e1]|].
  - destruct (Hk a _ _ _ H) as (rs2 & -> & Hs2 & Ho2).
    exists (rs1 ++ rs2). rewrite after_after.
    split; [reflexivity|]. split; [now apply Forall_app|].
    destruct out as [[b|e]|].
    + now apply Forall_app.
    + destruct Ho2 as [(rs0 & r & -> & Hrs0 & Hr)|(Hrs2 & Hmsg)].
      * left. exists (rs1 ++ rs0), r. rewrite app_assoc.
        repeat split; trivial. now apply Forall_app.
      * right. split; [now apply Forall_app | exact Hmsg].
    + now apply Forall_app.
  - injection H as <- <-. exists rs1. repeat split; trivial.
  - injection H as <- <-. exists rs1. repeat split; trivial.
Qed.

Lemma sound_fetchPages (fuel : nat) (e : string) :
  forall (c : value) (fi all : list item), sound P (fetchPages P fuel e c fi all).
Proof.
  induction fuel as [|fuel IH]; intros c fi all; cbn [fetchPages].
  - apply sound_out_of_fuel.
  - apply sound_bind; [apply sound_call_execute|]. intros result.
    apply sound_bind; [apply sound_convertAll|]. intros items.
    destruct (truthy (next_cursor result)); [apply IH | apply sound_ret].
Qed.

Lemma sound_forFolders (fuel : nat) (fs : list folder_entry) :
  forall (o : Obj.t (list item)) (all : list item),
    sound P (forFolders P fuel fs o all).
Proof.
  induction fs as [|f fs IH]; intros o all; cbn [forFolders].
  - apply sound_ret.
  - apply sound_bind; [apply sound_fetchPages|]. intros [fi all']. apply IH.
Qed.

(** The part of the [try] block that follows the listing. *)
Lemma sound_after_listing (h : host) (fuel : nat) (result : folders_result) :
  sound P
    (mbind (forFolders P fuel (or_empty (folders result)) Obj.empty [])
       (fun x =>
          match x with
          | (albumsByFolder, allImages) =>
              mbind (fetchPages P fuel (expressionOf EmptyString) Null [] allImages)
                (fun y =>
                   match y with
                   | (rootImages, allImages0) =>
                       ret (mkOutput (cloud_name h) (toISOString h)
                              (List.length allImages0) allImages0
                              (assemble (localeCompare h) albumCovers albumsByFolder))
                   end)
          end)).
Proof.
  apply sound_bind; [apply sound_forFolders|]. intros [o all].
  apply sound_bind; [apply sound_fetchPages|]. intros [root all'].
  apply sound_ret.
Qed.

End Sound.

(** What [buildOutput] does, listing first. *)
Lemma buildOutput_listing (h : host) (P : provider) (fuel : nat)
    (w w' : world) (out : option (completion output)) :
  buildOutput h P fuel w = (out, w') ->
  exists rs,
    w' = after w (ListFolders :: rs) /\
    Forall is_search rs /\
    (forall e, root_folders P = Throw e -> rs = [] /\ out = Some (Throw e)) /\
    match out with
    | Some (Throw e) =>
        (exists rs0 r, ListFolders :: rs = rs0 ++ [r] /\ answered P rs0 /\
                       failure P r = Some e) \/
        (answered P (ListFolders :: rs) /\ exists msg, e = TypeError msg)
    | _ => answered P (ListFolders :: rs)
    end.
Proof.
  unfold buildOutput. unfold mbind at 1.
  change (call_root_folders P w) with (Some (root_folders P), after w [ListFolders]).
  destruct (root_folders P) as [result|e0] eqn:Hlist.
  - assert (Hok : failure P ListFolders = None) by (cbn; now rewrite Hlist).
    intros H. apply (sound_after_listing P h fuel result) in H as (rs & -> & Hs & Ho).
    exists rs. rewrite after_after.
    split; [reflexivity|]. split; [exact Hs|]. split; [discriminate|].
    destruct out as [[o|e]|].
    + now constructor.
    + destruct Ho as [(rs0 & r & -> & Hrs0 & Hr)|(Hrs & Hmsg)].
      * left. exists (ListFolders :: rs0), r. repeat split; trivial. now constructor.
      * right. split; [now constructor | exact Hmsg].
    + now constructor.
  - intros H. injection H as <- <-. exists [].
    split; [reflexivity|]. split; [constructor|]. split.
    + intros e He. injection He as <-. now split.
    + left. exists [], ListFolders. repeat split; [constructor|].
      cbn. now rewrite Hlist.
Qed.



Lemma run_requests (h : host) (P : provider) (fuel : nat) (w w' : world)
    (status : option Z) :
  fetchAllImages h P fuel w = (status, w') ->
  exists out w1,
    buildOutput h P fuel w = (out, w1) /\
    requests w' = requests w1 /\
    (status = Some 1%Z <-> exists e, out = Some (Throw e)).
Proof.
  unfold fetchAllImages, tryBlock, mbind.
  destruct (buildOutput h P fuel w) as [[[o|e]|] w1]; intros H;
    injection H as <- <-; eexists; eexists; (split; [reflexivity|]);
    (split; [reflexivity|]); split; try discriminate.
  - intros (e & He). discriminate.
  - intros _. now exists e.
  - reflexivity.
  - intros (e & He). discriminate.
Qed.



(** X15: every run begins with the folder listing and sends it once: all
    later requests are searches.  When the listing is rejected no search is
    sent at all and the run ends with status 1. *)
Theorem listing_comes_first_and_once (h : host) (P : provider) (fuel : nat)
    (w w' : world) (status : option Z)
    (Hrun : fetchAllImages h P fuel w = (status, w')) :
  exists rs,
    issued w w' = ListFolders :: rs /\
    Forall is_search rs /\
    (forall e, root_folders P = Throw e -> rs = [] /\ status = Some 1%Z).
Proof.
  apply run_requests in Hrun as (out & w1 & E & Hreq & Hstatus).
  apply buildOutput_listing in E as (rs & -> & Hs & Hlist & _).
  exists rs. split; [now apply issued_app|]. split; [exact Hs|].
  intros e He. destruct (Hlist e He) as [-> ->]. split; [reflexivity|].
  apply Hstatus. now exists e.
Qed.

Lemma listing_comes_first_and_once_witness :
  let run := fetchAllImages Examples.node Examples.two_folders 1 Examples.fresh in
  run = (fst run, snd run) /\
  exists rs,
    issued Examples.fresh (snd run) = ListFolders :: rs /\
    Forall is_search rs /\
    (forall e, root_folders Examples.two_folders = Throw e ->
               rs = [] /\ fst run = Some 1%Z).
Proof.
  intros run.
  assert (H : run = (fst run, snd run)) by reflexivity.
  split; [exact H|].
  exact (listing_comes_first_and_once Examples.node Examples.two_folders 1
           Examples.fresh (snd run) (fst run) H).
Defined.

(** ** The requests of a successful run *)

Lemma forFolders_trace (P : provider) (fuel : nat) (fs : list folder_entry) :
  forall (o o' : Obj.t (list item)) (all all' : list item) (w w' : world),
    forFolders P fuel fs o all w = (Some (Return (o', all')), w') ->
    exists pagess,
      Forall2 (fun f pages => serves P (expressionOf (name f)) Null pages) fs pagess /\
      w' = after w (chains fs pagess).
Proof.
  induction fs as [|f fs IH]; intros o o' all all' w w' H; cbn [forFolders] in H.
  - injection H as _ _ <-. exists []. split; [constructor|].
    cbn [chains]. now rewrite after_nil.
  - apply mbind_Return in H as ([fi all1] & w1 & Hfetch & H).
    apply fetchPages_Return in Hfetch as (pages & itemss & Hs & _ & _ & _ & _ & ->).
    apply IH in H as (pagess & Hss & ->).
    exists (pages :: pagess). split; [now constructor|].
    cbn [chains]. now rewrite after_after.
Qed.

Lemma chains_length (fs : list folder_entry) (pagess : list (list search_result)) :
  List.length fs = List.length pagess ->
  List.length (chains fs pagess) = List.length (concat pagess).
Proof.
  revert pagess; induction fs as [|f fs IH]; intros [|pages pagess] H;
    cbn in H; try discriminate; [reflexivity|].
  cbn [chains concat]. rewrite !length_app, chain_length, IH; [reflexivity | lia].
Qed.

(** X16: the requests of a run that ends with status 0, in order: the
    listing; then for every listed folder in turn the chain of its pages,
    from a request without cursor to the page that carries none; then the
    chain of the unfiled assets.  So the run sends one request more than it
    receives pages. *)
Theorem requests_of_successful_run (h : host) (P : provider) (fuel : nat)
    (w w' : world)
    (Hrun : fetchAllImages h P fuel w = (Some 0%Z, w')) :
  exists result pagess unfiled,
    root_folders P = Return result /\
    Forall2 (fun f pages => serves P (expressionOf (name f)) Null pages)
            (or_empty (folders result)) pagess /\
    serves P (expressionOf EmptyString) Null unfiled /\
    issued w w' =
      ListFolders :: chains (or_empty (folders result)) pagess
                  ++ chain (expressionOf EmptyString) Null unfiled /\
    List.length (issued w w') = 1 + List.length (concat pagess) + List.length unfiled.
Proof.
  apply run_success in Hrun as Hbuild. destruct Hbuild as (o & w1 & Hbuild & _).
  apply run_requests in Hrun as (out & w1' & E & Hreq & _).
  rewrite Hbuild in E. injection E as <- <-.
  unfold buildOutput in Hbuild.
  apply mbind_Return in Hbuild as (result & w2 & Hlist & H).
  unfold call_root_folders, mbind, send, lift in Hlist.
  injection Hlist as Hresult <-.
  apply mbind_Return in H as ([o1 all1] & w3 & Hfolders & H).
  apply forFolders_trace in Hfolders as (pagess & Hss & ->).
  apply mbind_Return in H as ([root all2] & w4 & Hroot & H).
  apply fetchPages_Return in Hroot as (unfiled & itemss & Hs & _ & _ & _ & _ & ->).
  injection H as _ <-.
  exists result, pagess, unfiled.
  assert (Hissued : issued w w' =
            ListFolders :: chains (or_empty (folders result)) pagess
                        ++ chain (expressionOf EmptyString) Null unfiled).
  { apply issued_app. rewrite Hreq. cbn [after requests].
    now rewrite <- !app_assoc. }
  repeat split; trivial.
  rewrite Hissued. cbn [List.length]. rewrite length_app, chain_length, chains_length.
  - lia.
  - now apply Forall2_length in Hss.
Qed.

Lemma requests_of_successful_run_witness :
  let P := Examples.two_pages in
  let run := fetchAllImages Examples.node P 2 Examples.fresh in
  run = (Some 0%Z, snd run) /\
  requests (snd run) =
    [ListFolders; Search (expressionOf "F") Null; Search (expressionOf "F") (Str "c1");
     Search (expressionOf EmptyString) Null] /\
  exists result pagess unfiled,
    root_folders P = Return result /\
    Forall2 (fun f pages => serves P (expressionOf (name f)) Null pages)
            (or_empty (folders result)) pagess /\
    serves P (expressionOf EmptyString) Null unfiled /\
    issued Examples.fresh (snd run) =
      ListFolders :: chains (or_empty (folders result)) pagess
                  ++ chain (expressionOf EmptyString) Null unfiled /\
    List.length (issued Examples.fresh (snd run))
      = 1 + List.length (concat pagess) + List.length unfiled.
Proof.
  intros P run.
  assert (H : run = (Some 0%Z, snd run)) by reflexivity.
  split; [exact H|]. split; [reflexivity|].
  exact (requests_of_successful_run Examples.node P 2 Examples.fresh (snd run) H).
Defined.

(** ** A provider that never stops *)

Lemma fetchPages_endless (P : provider) (e : string) :
  endless P e ->
  forall (fuel : nat) (c : value) (fi all : list item) (w : world),
    exists rs,
      fetchPages P fuel e c fi all w = (None, after w rs) /\
      List.length rs = fuel /\
      forall r, In r rs -> exists c', r = Search e c'.
Proof.
  intros Hend. induction fuel as [|fuel IH]; intros c fi all w.
  - exists []. rewrite after_nil. repeat split. intros r [].
  - destruct (Hend c) as (page & items & Hpage & Hitems & Htruthy).
    cbn [fetchPages]. unfold mbind at 1. rewrite call_execute_run, Hpage.
    unfold mbind at 1, lift. rewrite Hitems, Htruthy.
    destruct (IH (next_cursor page) (fi ++ items) (all ++ items)
                 (after w [Search e c])) as (rs & -> & Hlen & Hrs).
    exists (Search e c :: rs). rewrite after_after. split; [reflexivity|]. split.
    + cbn. now rewrite Hlen.
    + intros r [<-|Hin]; [now eexists | now apply Hrs].
Qed.

(** X17: the loop has no limit of its own: when the provider hands out a
    cursor with every page of the first listed folder, the run is still
    requesting pages of that folder after any number of requests, and has
    neither written [images.json] nor printed an error. *)
Theorem run_never_ends_on_endless_cursor (h : host) (P : provider)
    (result : folders_result) (f : folder_entry) (fs : list folder_entry)
    (fuel : nat) (w : world)
    (Hlist : root_folders P = Return result)
    (Hfirst : or_empty (folders result) = f :: fs)
    (Hend : endless P (expressionOf (name f))) :
  exists rs,
    fetchAllImages h P fuel w = (None, after w (ListFolders :: rs)) /\
    List.length rs = fuel /\
    (forall r, In r rs -> exists c, r = Search (expressionOf (name f)) c).
Proof.
  destruct (fetchPages_endless P _ Hend fuel Null [] [] (after w [ListFolders]))
    as (rs & Hfetch & Hlen & Hrs).
  exists rs. split; [|split; [exact Hlen | exact Hrs]].
  unfold fetchAllImages, tryBlock, buildOutput, call_root_folders, mbind, send, lift.
  rewrite Hlist, Hfirst. cbn [forFolders]. unfold mbind.
  fold (after w [ListFolders]). rewrite Hfetch, after_after. reflexivity.
Qed.

Lemma run_never_ends_on_endless_cursor_witness :
  let P := MoreExamples.bottomless in
  (root_folders P = Return (mkFolders (Some [mkFolder "F"])) /\
   or_empty (folders (mkFolders (Some [mkFolder "F"]))) = [mkFolder "F"] /\
   endless P (expressionOf "F")) /\
  exists rs,
    fetchAllImages Examples.node P 50 Examples.stale
      = (None, after Examples.stale (ListFolders :: rs)) /\
    List.length rs = 50 /\
    (forall r, In r rs -> exists c, r = Search (expressionOf "F") c).
Proof.
  intros P.
  assert (H : root_folders P = Return (mkFolders (Some [mkFolder "F"])) /\
              or_empty (folders (mkFolders (Some [mkFolder "F"]))) = [mkFolder "F"] /\
              endless P (expressionOf "F")).
  { split; [reflexivity|]. split; [reflexivity|].
    intros c. exists (mkPage (Some [Examples.photo "1"]) (Str "again")),
                     [Examples.converted "1"].
    repeat split. }
  split; [exact H|].
  destruct H as (H1 & H2 & H3).
  exact (run_never_ends_on_endless_cursor Examples.node P _ (mkFolder "F") [] 50
           Examples.stale H1 H2 H3).
Defined.

(** ** Missing lists and empty accounts *)

(** X18: answers that lack their lists count as empty: when the listing has
    no [folders] property and the only page of the unfiled search has no
    [resources] property, the run ends with status 0 after two requests and
    writes a document without albums and without images. *)
Theorem run_on_answers_without_lists (h : host) (P : provider) (fuel : nat)
    (w : world) (cursor : value)
    (Hlist : root_folders P = Return (mkFolders None))
    (Hpage : execute P (expressionOf EmptyString) Null = Return (mkPage None cursor))
    (Hlast : truthy cursor = false) :
  fetchAllImages h P (S fuel) w =
    (Some 0%Z,
     mkWorld (requests w ++ [ListFolders; Search (expressionOf EmptyString) Null])
             (stderr w)
             (Some (Json (mkOutput (cloud_name h) (toISOString h) 0 [] [])))).
Proof.
  unfold fetchAllImages, tryBlock, buildOutput, call_root_folders, mbind, send, lift.
  rewrite Hlist. cbn [folders or_empty forFolders fetchPages ret].
  unfold mbind, call_execute, mbind, send, lift. cbn [requests stderr images_json].
  rewrite Hpage. cbn [resources or_empty convertAll next_cursor].
  rewrite Hlast. unfold ret, writeFileSync. cbn.
  now rewrite <- app_assoc.
Qed.

Lemma run_on_answers_without_lists_witness :
  let P := MoreExamples.bare in
  (root_folders P = Return (mkFolders None) /\
   execute P (expressionOf EmptyString) Null = Return (mkPage None Undefined) /\
   truthy Undefined = false) /\
  fetchAllImages Examples.node P 1 Examples.stale =
    (Some 0%Z,
     mkWorld [ListFolders; Search (expressionOf EmptyString) Null] []
             (Some (Json (mkOutput "ddnebrkpu" "2026-01-01T00:00:00.000Z" 0 [] [])))).
Proof.
  intros P.
  assert (H : root_folders P = Return (mkFolders None) /\
              execute P (expressionOf EmptyString) Null = Return (mkPage None Undefined) /\
              truthy Undefined = false) by (repeat split).
  split; [exact H|].
  destruct H as (H1 & H2 & H3).
  exact (run_on_answers_without_lists Examples.node P 0 Examples.stale Undefined
           H1 H2 H3).
Defined.

(** ** The albums of a run *)

Lemma filter_unique {A : Type} (g : A -> string) (l : list A) (a : A) :
  NoDup (map g l) -> In a l ->
  filter (fun x => g x =? g a)%string l = [a].
Proof.
  induction l as [|x l IH]; intros Hnd Hin; [destruct Hin|].
  cbn [map] in Hnd. inversion_clear Hnd as [|? ? Hx Hl]. cbn [filter].
  assert (Hnone : forall y, ~ In (g y) (map g l) ->
                            filter (fun x => g x =? g y)%string l = []).
  { intros y Hy. clear -Hy. induction l as [|z l IH]; [reflexivity|].
    cbn [filter]. destruct (String.eqb_spec (g z) (g y)) as [E|_].
    - elim Hy. left. exact E.
    - apply IH. intros H. apply Hy. now right. }
  destruct Hin as [->|Hin].
  - rewrite String.eqb_refl. f_equal. now apply Hnone.
  - destruct (String.eqb_spec (g x) (g a)) as [E|_].
    + elim Hx. rewrite E. now apply in_map.
    + now apply IH.
Qed.

(** X19: on a run that ends with status 0 the albums of a folder name are
    exactly one, made by [toAlbum] from the name and the items fetched for
    it, when the name is listed, is not [__proto__] and has items; and none
    when the name is not listed, or is [__proto__], or has no items. *)
Theorem one_album_per_nonempty_folder (h : host) (P : provider) (fuel : nat)
    (w w' : world) (o : output) (result : folders_result)
    (Hrun : fetchAllImages h P fuel w = (Some 0%Z, w'))
    (Hfile : written w' = Some o)
    (Hlist : root_folders P = Return result) :
  (forall f s,
     In f (or_empty (folders result)) -> name f <> "__proto__" ->
     folderItems P fuel (expressionOf (name f)) = Some s -> s <> [] ->
     filter (fun a => folder a =? name f)%string (albums o)
     = [toAlbum albumCovers (name f, s)]) /\
  (forall k,
     (forall f, In f (or_empty (folders result)) -> name f <> k) \/
     k = "__proto__" \/
     folderItems P fuel (expressionOf k) = Some [] ->
     filter (fun a => folder a =? k)%string (albums o) = []).
Proof.
  destruct (albums_of_run h P fuel w w' o result Hrun Hfile Hlist)
    as (Hnd & Hsound & Hcomplete).
  split.
  - intros f s Hf Hproto Hs Hne.
    destruct (Hcomplete f s Hf Hproto Hs Hne) as (a & Ha & Hfolder & Himages).
    rewrite <- Hfolder. rewrite (filter_unique folder _ a Hnd Ha). f_equal.
    destruct (Hsound a Ha) as (-> & _). cbn [toAlbum folder images].
    now rewrite <- Himages.
  - intros k Hk.
    destruct (filter (fun a => folder a =? k)%string (albums o)) as [|a l] eqn:E;
      [reflexivity|].
    assert (Ha : In a (filter (fun a => folder a =? k)%string (albums o)))
      by (rewrite E; now left).
    apply filter_In in Ha as [Ha Hfolder]. apply String.eqb_eq in Hfolder.
    destruct (Hsound a Ha) as (_ & Hne & Hproto & (f & Hf & Hname) & Hitems).
    rewrite Hfolder in *.
    destruct Hk as [Hk|[Hk|Hk]].
    + now elim (Hk f Hf).
    + now elim Hproto.
    + rewrite Hitems in Hk. injection Hk as Hk. now elim Hne.
Qed.

Lemma one_album_per_nonempty_folder_witness :
  let P := MoreExamples.listed_twice in
  let run := fetchAllImages Examples.node P 1 Examples.fresh in
  let F := [Examples.converted "1"; Examples.converted "2"] in
  let o := mkOutput "ddnebrkpu" "2026-01-01T00:00:00.000Z" 5
             (F ++ F ++ [Examples.converted "r"])
             [mkAlbum "F" "F" (Some (Examples.converted "1")) F] in
  let result := mkFolders (Some [mkFolder "F"; mkFolder "F"]) in
  (run = (Some 0%Z, snd run) /\ written (snd run) = Some o /\
   root_folders P = Return result) /\
  filter (fun a => folder a =? "F")%string (albums o) = [toAlbum albumCovers ("F", F)] /\
  filter (fun a => folder a =? "__proto__")%string (albums o) = [].
Proof.
  intros P run F o result.
  assert (H : run = (Some 0%Z, snd run) /\ written (snd run) = Some o /\
              root_folders P = Return result) by (repeat split).
  split; [exact H|].
  destruct H as (H1 & H2 & H3).
  pose proof (one_album_per_nonempty_folder Examples.node P 1 Examples.fresh
                (snd run) o result H1 H2 H3) as (Hone & Hnone).
  split.
  - apply (Hone (mkFolder "F") F); [now left | discriminate | reflexivity | discriminate].
  - apply Hnone. right. now left.
Defined.

Lemma coverOf_In (covers : Obj.t Z) (k : string) (v : list item) :
  v <> [] -> exists c, coverOf covers k v = Some c /\ In c v.
Proof.
  intros Hv. unfold coverOf.
  destruct (element v (coverIndex covers k)) as [c|] eqn:E.
  - exists c. split; [reflexivity|].
    destruct (coverIndex covers k) as [z|]; cbn [element] in E; [|discriminate].
    destruct (z <? 0)%Z; [discriminate|]. now apply nth_error_In in E.
  - destruct v as [|c v]; [now elim Hv|]. exists c. split; [reflexivity | now left].
Qed.

Lemma fetched_in_seqs (P : provider) (fuel : nat) (fs : list folder_entry)
    (seqs : list (list item)) (f : folder_entry) :
  Forall2 (fetched P fuel) fs seqs -> In f fs ->
  exists s, In s seqs /\ fetched P fuel f s.
Proof.
  induction 1 as [|f0 s0 fs seqs Hf0 _ IH]; intros Hin; [destruct Hin|].
  destruct Hin as [->|Hin].
  - exists s0. split; [now left | exact Hf0].
  - destruct (IH Hin) as (s & Hs & Hf). exists s. split; [now right | exact Hf].
Qed.

(** X20: what holds of every album a run writes: its title is the formatted
    folder name, its cover is one of its images, and all its images are
    among [carouselImages]. *)
Theorem album_invariants (h : host) (P : provider) (fuel : nat)
    (w w' : world) (o : output) (a : album)
    (Hrun : fetchAllImages h P fuel w = (Some 0%Z, w'))
    (Hfile : written w' = Some o)
    (Ha : In a (albums o)) :
  title a = formatFolderName (folder a) /\
  (exists c, coverImage a = Some c /\ In c (images a)) /\
  incl (images a) (carouselImages o).
Proof.
  apply run_success in Hrun as (o' & w1 & Hbuild & Hwritten).
  assert (o' = o) as -> by congruence.
  apply buildOutput_Return in Hbuild as (result & seqs & root & _ & Hs & _ & ->).
  cbn [albums carouselImages] in *.
  apply (Permutation_in _ (Permutation_sym (assemble_perm _ _ _))) in Ha.
  apply in_map_iff in Ha as ([k v] & <- & Hin).
  cbn [toAlbum title folder coverImage images].
  destruct (registerAll_In P fuel _ seqs Hs _ _ _ Hin)
    as [[]|(_ & Hv & (f & Hf & Hname) & Hitems)].
  split; [reflexivity|]. split; [now apply coverOf_In|].
  destruct (fetched_in_seqs P fuel _ seqs f Hs Hf) as (s & Hsin & Hfs).
  unfold fetched in Hfs. rewrite Hname, Hitems in Hfs. injection Hfs as <-.
  intros i Hi. apply in_or_app. left. apply in_concat. now exists v.
Qed.

Lemma album_invariants_witness :
  let run := fetchAllImages Examples.node Examples.two_folders 1 Examples.fresh in
  let A := [Examples.converted "1"; Examples.converted "2"; Examples.converted "3"] in
  let a := mkAlbum "A" "A" (Some (Examples.converted "1")) A in
  let o := mkOutput "ddnebrkpu" "2026-01-01T00:00:00.000Z" 4
             (A ++ [Examples.converted "r"]) [a] in
  (run = (Some 0%Z, snd run) /\ written (snd run) = Some o /\ In a (albums o)) /\
  title a = formatFolderName (folder a) /\
  (exists c, coverImage a = Some c /\ In c (images a)) /\
  incl (images a) (carouselImages o).
Proof.
  intros run A a o.
  assert (H : run = (Some 0%Z, snd run) /\ written (snd run) = Some o /\
              In a (albums o)).
  { split; [reflexivity|]. split; [reflexivity | now left]. }
  split; [exact H|].
  destruct H as (H1 & H2 & H3).
  exact (album_invariants Examples.node Examples.two_folders 1 Examples.fresh
           (snd run) o a H1 H2 H3).
Defined.
